(** * Coders-gyan snippets: a shallow embedding and its properties

    The repository is a collection of independent teaching snippets.  Each
    snippet that carries a checkable property gets a module of its own:

    - [JsMap]      : [Array.prototype.myMap]            (js-methods/map.js)
    - [FileUpload] : the dependency-injection example   (02-dependancy-injection.md)
    - [StarRating] : the star-rating widget             (star-rating/script.js)
    - [Discount]   : [getDiscount]                      (use-boolean-like-pro/app.js)
    - [Auth]       : [AuthLayout]                       (the Next.js auth layout)
    - [Reduce]     : the [reduce] examples              (js-methods/reduce.js)
    - [Functions]  : [findActiveUser], [validateUser]   (the notes on functions)

    Part I holds the embedding, Part II the properties, module by module
    ([JsMapFacts] for [JsMap], and so on). *)

From Stdlib Require Import ZArith Lia.
From Stdlib Require Import Floats.SpecFloat.
From stdpp Require Import base list strings gmap.

(** * Part I: the embedding *)

(** ** Completion records

    A JavaScript call either returns a value or throws.  The thrown values
    the snippets can produce are [TypeError]s and whatever user code throws. *)

Inductive thrown : Type :=
  | TypeError (message : string)
  | UserThrow (what : string).

Inductive completion (A : Type) : Type :=
  | Normal (a : A)
  | Throw (e : thrown).
Arguments Normal {A} a.
Arguments Throw {A} e.

Definition cbind {A B} (c : completion A) (k : A -> completion B) : completion B :=
  match c with
  | Normal a => k a
  | Throw e => Throw e
  end.

Definition cmap {A B} (f : A -> B) (c : completion A) : completion B :=
  cbind c (fun a => Normal (f a)).

Definition is_normal {A} (c : completion A) : bool :=
  match c with Normal _ => true | Throw _ => false end.

Definition is_type_error {A} (c : completion A) : bool :=
  match c with Throw (TypeError _) => true | _ => false end.

#[global] Instance completion_ret : MRet completion := @Normal.
#[global] Instance completion_bind : MBind completion :=
  fun A B k c => cbind c k.
#[global] Instance completion_fmap : FMap completion := @cmap.

(** Decimal rendering of an integer, as [String(n)] gives it for the
    integers the snippets convert (loop counters and small literals). *)

Fixpoint digits_of (fuel : nat) (n : N) (acc : string) : string :=
  match fuel with
  | O => acc
  | S fuel' =>
      let d := Ascii.ascii_of_N (48 + n mod 10) in
      let acc' := String d acc in
      if (n <? 10)%N then acc' else digits_of fuel' (n / 10) acc'
  end.

Definition string_of_Z (z : Z) : string :=
  match z with
  | Z0 => "0"
  | Zpos p => digits_of (S (N.to_nat (N.log2 (Npos p)))) (Npos p) ""
  | Zneg p => "-" +:+ digits_of (S (N.to_nat (N.log2 (Npos p)))) (Npos p) ""
  end.

(** ** js-methods/map.js *)

Module JsMap.

(** The values that are not callable.  Numbers are kept to integers: the
    value only feeds the error message.  An object comes with what its
    conversion to a string does: the string its [toString] (or
    [Symbol.toPrimitive]) gives, or what it throws. *)
Inductive prim : Type :=
  | PUndefined
  | PNull
  | PBool (b : bool)
  | PNumber (n : Z)
  | PString (s : string)
  | PSymbol (description : string)
  | PObject (toString : completion string).

(** An array is a list of slots; [None] is a hole. *)
Abbreviation array A := (list (option A)).

Section MyMap.
Context {A B T : Type}.

(** What reading [this[i]] yields where the array has no element. *)
Variable undefined : A.

(** A function called as a callback receives [this], the element, its
    index and the array itself, which it may change: it gives back the array
    as it leaves it, and returns or throws. *)
Definition fn : Type := T -> A -> nat -> array A -> array A * completion B.

(** What [callback.call] finds on a function: the inherited
    [Function.prototype.call], or an own property [call], holding another
    function or a value that cannot be called. *)
Inductive call_property : Type :=
  | FunctionPrototypeCall
  | OwnFunction (g : fn)
  | OwnValue (v : prim).

(** The first argument of [myMap]: any value at all. *)
Inductive arg : Type :=
  | Callable (source : string) (f : fn) (property : call_property)
  | NotCallable (v : prim).

Definition typeof (callback : arg) : string :=
  match callback with
  | Callable _ _ _ => "function"
  | NotCallable PUndefined => "undefined"
  | NotCallable PNull => "object"
  | NotCallable (PBool _) => "boolean"
  | NotCallable (PNumber _) => "number"
  | NotCallable (PString _) => "string"
  | NotCallable (PSymbol _) => "symbol"
  | NotCallable (PObject _) => "object"
  end.

(** [`${callback}`]: the string conversion of a template literal. *)
Definition ToString (callback : arg) : completion string :=
  match callback with
  | Callable source _ _ => Normal source
  | NotCallable PUndefined => Normal "undefined"
  | NotCallable PNull => Normal "null"
  | NotCallable (PBool true) => Normal "true"
  | NotCallable (PBool false) => Normal "false"
  | NotCallable (PNumber n) => Normal (string_of_Z n)
  | NotCallable (PString s) => Normal s
  | NotCallable (PSymbol _) =>
      Throw (TypeError "Cannot convert a Symbol value to a string")
  | NotCallable (PObject toString) => toString
  end.

(** [callback.call(thisArgs, x, i, arr)]: the property [call] is looked
    up on the callback and what it holds is called. *)
Definition call (callback : arg) (thisArgs : T) (x : A) (i : nat) (arr : array A)
  : array A * completion B :=
  match callback with
  | Callable _ f FunctionPrototypeCall => f thisArgs x i arr
  | Callable _ _ (OwnFunction g) => g thisArgs x i arr
  | Callable _ _ (OwnValue _) =>
      (arr, Throw (TypeError "callback.call is not a function"))
  | NotCallable _ =>
      (arr, Throw (TypeError "callback.call is not a function"))
  end.

(** [this[i]] *)
Definition get (this : array A) (i : nat) : A :=
  match this !! i with
  | Some (Some x) => x
  | _ => undefined
  end.

(** The [for] loop of [myMap]: [i] is the counter, [result] the array
    built so far and [this] the array as the callbacks have left it; its
    length is read again at every turn.  [fuel] bounds the number of tests
    [i < this.length]; none left is [None]. *)
Fixpoint loop (callback : arg) (thisArgs : T) (fuel : nat)
    (this : array A) (i : nat) (result : list B)
  : option (completion (list B)) :=
  match fuel with
  | 0 => None
  | S fuel' =>
      if decide (i < length this) then
        let '(this', returned) := call callback thisArgs (get this i) i this in
        match returned with
        | Throw e => Some (Throw e)
        | Normal v => loop callback thisArgs fuel' this' (S i) (result ++ [v])
        end
      else Some (Normal result)
  end.

Definition myMap (fuel : nat) (this : array A) (callback : arg) (thisArgs : T)
  : option (completion (list B)) :=
  if negb (String.eqb (typeof callback) "function") then
    Some (s ← ToString callback ;
          Throw (TypeError (s +:+ " is not a function")))
  else
    loop callback thisArgs fuel this 0 [].

(** The built-in [Array.prototype.map], after its definition in the
    language standard: the callback must be callable; the length is read
    once; every index below it that is present when its turn comes is
    mapped, in ascending order, by calling the callback itself (its property
    [call] plays no part); an index that is not present is a hole of the
    result. *)
Definition Call (callback : arg) (thisArg : T) (x : A) (k : nat) (O : array A)
  : array A * completion B :=
  match callback with
  | Callable _ f _ => f thisArg x k O
  | NotCallable _ => (O, Throw (TypeError "callback is not a function"))
  end.

Fixpoint builtin_map_from (callback : arg) (thisArg : T)
    (steps k : nat) (O : array A) : completion (list (option B)) :=
  match steps with
  | 0 => Normal []
  | S steps' =>
      match O !! k with
      | Some (Some kValue) =>
          let '(O', returned) := Call callback thisArg kValue k O in
          mapped ← returned ;
          tail ← builtin_map_from callback thisArg steps' (S k) O' ;
          Normal (Some mapped :: tail)
      | _ =>
          tail ← builtin_map_from callback thisArg steps' (S k) O ;
          Normal (None :: tail)
      end
  end.

Definition builtin_map (O : array A) (callback : arg) (thisArg : T)
  : completion (list (option B)) :=
  match callback with
  | NotCallable _ => Throw (TypeError "callback is not a function")
  | Callable _ _ _ => builtin_map_from callback thisArg (length O) 0 O
  end.

Definition no_holes (this : array A) : Prop := Forall is_Some this.

(** A function that leaves the array it is given as it is, and a
    callback whose calls through [callback.call] do. *)
Definition leaves_alone (f : fn) : Prop :=
  forall t x i arr, (f t x i arr).1 = arr.

Definition preserves (callback : arg) : Prop :=
  forall t x i arr, (call callback t x i arr).1 = arr.

(** The array at the start of the [k]-th turn after turn [i], the turns
    in between having returned. *)
Fixpoint live (callback : arg) (thisArgs : T) (i : nat) (this : array A)
    (k : nat) : array A :=
  match k with
  | 0 => this
  | S k' =>
      live callback thisArgs (S i)
        (call callback thisArgs (get this i) i this).1 k'
  end.

(** The turns of the loop on an array that stays as it is: [steps] turns
    from the counter [i]. *)
Fixpoint turns (this : array A) (callback : arg) (thisArgs : T)
    (steps i : nat) (result : list B) : completion (list B) :=
  match steps with
  | 0 => Normal result
  | S steps' =>
      v ← (call callback thisArgs (get this i) i this).2 ;
      turns this callback thisArgs steps' (S i) (result ++ [v])
  end.

End MyMap.

(** The data of the snippet: two users, and the callback that builds the
    [fullName] objects.  Reading a property of [undefined] throws. *)
Inductive user : Type :=
  | Undefined
  | User (id : Z) (fname lname : string).

Record named : Type := { fullName : string }.

Definition users : array user :=
  [ Some (User 1 "John" "Doe"); Some (User 2 "Alice" "Doe") ].

Definition to_named : @fn user named unit :=
  fun _ user idx array =>
    (array,
     match user with
     | User _ fname lname => Normal {| fullName := fname +:+ " " +:+ lname |}
     | Undefined =>
         Throw (TypeError "Cannot read properties of undefined (reading 'fname')")
     end).

Definition result2 : option (completion (list named)) :=
  myMap Undefined 3 users
    (Callable "(user, idx, array) => {...}" to_named FunctionPrototypeCall) tt.

(** Functions on numbers used to try [myMap] out: [x => x]; one that
    empties the array it is given, [(x, i, a) => { a.length = 0; return x }];
    and one that adds to it, [(x, i, a) => { a.push(x); return x }]. *)
Inductive value : Type :=
  | VUndefined
  | VNumber (n : Z).

Definition identity : @fn value value unit := fun _ x _ arr => (arr, Normal x).

Definition emptying : @fn value value unit := fun _ x _ _ => ([], Normal x).

Definition growing : @fn value value unit :=
  fun _ x _ arr => (arr ++ [Some x], Normal x).

End JsMap.

(** ** dependancy-injection/02-dependancy-injection.md *)

Module FileUpload.

(** What a request does that can be observed, in the order it happens.
    The three promise events record the life of the promise an async call
    returns: created by the call, settled when the body returns, awaited if
    the caller waits for it. *)
Inductive event : Type :=
  | ConsoleLog (line : string)
  | Response (status : Z) (message : string)
  | PromiseCreated
  | PromiseSettled (value : bool)
  | PromiseAwaited.

#[global] Instance event_eq_dec : EqDecision event.
Proof. solve_decision. Defined.

(** The body of an async [upload]: it logs, it may wait for pending I/O
    (which suspends it until the event loop resumes it), and it returns.
    Bodies that throw, and so reject their promise, are left out. *)
Inductive async : Type :=
  | Return (value : bool)
  | Log (line : string) (rest : async)
  | Await (rest : async).

(** [interface Uploader { upload: (filename: string) => Promise<boolean> }] *)
Record Uploader : Type := { upload : string -> async }.

Definition S3Uploader (bucket : string) : Uploader :=
  {| upload filename :=
       Log ("Uploading " +:+ filename +:+ " to S3 in bucket " +:+ bucket +:+ "...")
         (Return true) |}.

Definition ClUploader (bucket : string) : Uploader :=
  {| upload filename :=
       Log ("Uploading " +:+ filename +:+ " to Cloudinary in bucket "
            +:+ bucket +:+ "...")
         (Return true) |}.

Definition FakeUploader : Uploader :=
  {| upload _ := Return true |}.

(** An implementation of the contract that waits for its transfer before
    it logs and returns; the example has none, the contract allows it. *)
Definition WaitingUploader : Uploader :=
  {| upload filename := Await (Log ("Uploaded " +:+ filename) (Return true)) |}.

(** A call runs the body up to its first suspension: the events so far,
    and the rest of the body if it is suspended. *)
Fixpoint start (body : async) : list event * option async :=
  match body with
  | Return value => ([PromiseSettled value], None)
  | Log line rest =>
      let '(events, suspended) := start rest in
      (ConsoleLog line :: events, suspended)
  | Await rest => ([], Some rest)
  end.

(** The event loop runs a suspended body to its return. *)
Fixpoint resume (body : async) : list event :=
  match body with
  | Return value => [PromiseSettled value]
  | Log line rest => ConsoleLog line :: resume rest
  | Await rest => resume rest
  end.

(** The statements of the controller and of the route. *)
Inductive stmt : Type :=
  | CallUpload (uploader : Uploader) (filename : string)
      (* uploader.upload(filename); *)
  | AwaitUpload (uploader : Uploader) (filename : string)
      (* await uploader.upload(filename); *)
  | ResStatus (code : Z)
      (* res.status(code) *)
  | ResJson (message : string).
      (* res.json({ message }) *)

Record machine : Type := {
  trace : list event;
  statusCode : Z;
  suspended : list async
}.

Definition exec (m : machine) (s : stmt) : machine :=
  match s with
  | CallUpload uploader filename =>
      let '(events, rest) := start (upload uploader filename) in
      {| trace := trace m ++ PromiseCreated :: events;
         statusCode := statusCode m;
         suspended := suspended m ++ option_list rest |}
  | AwaitUpload uploader filename =>
      let '(events, rest) := start (upload uploader filename) in
      {| trace := trace m ++ PromiseCreated :: events
                  ++ flat_map resume (suspended m ++ option_list rest)
                  ++ [PromiseAwaited];
         statusCode := statusCode m;
         suspended := [] |}
  | ResStatus code =>
      {| trace := trace m; statusCode := code; suspended := suspended m |}
  | ResJson message =>
      {| trace := trace m ++ [Response (statusCode m) message];
         statusCode := statusCode m; suspended := suspended m |}
  end.

(** A handler runs its statements on a fresh response (status 200); the
    event loop then runs what was left suspended. *)
Definition run (body : list stmt) : list event :=
  let m := foldl exec {| trace := []; statusCode := 200; suspended := [] |} body in
  trace m ++ flat_map resume (suspended m).

Record FileController : Type := { uploader : Uploader }.

(** [FileController.upload], as the example has it. *)
Definition FileController_upload (this : FileController) : list stmt :=
  [ CallUpload (uploader this) "sample-file.mp4";
    ResJson "File uploaded successfully!" ].

(** [FileController.upload], as the text says it should be. *)
Definition FileController_upload_fixed (this : FileController) : list stmt :=
  [ AwaitUpload (uploader this) "sample-file.mp4";
    ResJson "File uploaded successfully!" ].

(** [req.query.uploader]: absent, a string, or what a repeated or nested
    parameter parses to. *)
Inductive query_value : Type :=
  | QUndefined
  | QString (s : string)
  | QArray (items : list string)
  | QObject.

(** [v === s] for a string literal [s] *)
Definition strict_eq (v : query_value) (s : string) : bool :=
  match v with
  | QString s' => String.eqb s' s
  | _ => false
  end.

(** The handler of [app.get("/file-upload", ...)]. *)
Definition file_upload (uploaderStr : query_value) : list stmt :=
  if strict_eq uploaderStr "s3" then
    let uploader := S3Uploader "my-s3-bucket" in
    FileController_upload {| uploader := uploader |}
  else if strict_eq uploaderStr "cloudinary" then
    let uploader := ClUploader "my-cloudinary-bucket" in
    FileController_upload {| uploader := uploader |}
  else
    [ ResStatus 400; ResJson "Invalid uploader specified" ].

Definition count (e : event) (t : list event) : nat :=
  length (filter (fun e' => e' = e) t).

Definition is_settled (e : event) : Prop :=
  match e with PromiseSettled _ => True | _ => False end.

#[global] Instance is_settled_dec e : Decision (is_settled e).
Proof. destruct e; simpl; apply _. Defined.

(** The events a body of [upload] can produce itself. *)
Definition of_body (e : event) : Prop :=
  match e with
  | ConsoleLog _ | PromiseSettled _ => True
  | _ => False
  end.

(** The factory the text proposes for the wiring:
    [function uploaderFactory(type: string): Uploader]. *)
Inductive made : Type :=
  | Made (uploader : Uploader)
  | ThrowError (message : string).

Definition uploaderFactory (type : string) : made :=
  if String.eqb type "s3" then Made (S3Uploader "bucket")
  else if String.eqb type "cloudinary" then Made (ClUploader "bucket")
  else ThrowError "Invalid uploader".

(** What a client of the server and a reader of its console see. *)
Definition is_response (e : event) : Prop :=
  match e with Response _ _ => True | _ => False end.

#[global] Instance is_response_dec e : Decision (is_response e).
Proof. destruct e; simpl; apply _. Defined.

Definition is_visible (e : event) : Prop :=
  match e with ConsoleLog _ | Response _ _ => True | _ => False end.

#[global] Instance is_visible_dec e : Decision (is_visible e).
Proof. destruct e; simpl; apply _. Defined.

End FileUpload.

(** ** star-rating/script.js *)

Module StarRating.

Inductive event_type : Type := mouseover | mouseout | click.

#[global] Instance event_type_eq_dec : EqDecision event_type.
Proof. solve_decision. Defined.

(** The three arrow functions [renderStars] registers on a star, each with
    the loop counter [i] it has captured. *)
Inductive listener : Type :=
  | OnMouseover (i : Z)   (* () => { highlightStars(i + 1) } *)
  | OnMouseout            (* () => { highlightStars(rating) } *)
  | OnClick (i : Z).      (* () => { rating = i + 1; ratingValue.innerText = rating } *)

Record element : Type := mkElement {
  tagName : string;
  classList : list string;
  innerHTML : string;
  listeners : list (event_type * listener)
}.

(** The script's view of the page: the children of [#star-container], the
    text of [#rating-value] and the variable [rating]. *)
Record state : Type := mkState {
  starContainer : list element;
  ratingValue : string;
  rating : Z
}.

Definition TOTAL_STARS : Z := 5.

Definition createElement (tag : string) : element :=
  {| tagName := tag; classList := []; innerHTML := ""; listeners := [] |}.

Definition contains (token : string) (e : element) : bool :=
  bool_decide (token ∈ classList e).

(** [e.classList.add(token)]: a token list holds a token once. *)
Definition classList_add (token : string) (e : element) : element :=
  if contains token e then e
  else {| tagName := tagName e; classList := classList e ++ [token];
          innerHTML := innerHTML e; listeners := listeners e |}.

(** [e.classList.remove(token)] *)
Definition classList_remove (token : string) (e : element) : element :=
  {| tagName := tagName e;
     classList := filter (fun t => t ≠ token) (classList e);
     innerHTML := innerHTML e; listeners := listeners e |}.

Definition set_innerHTML (html : string) (e : element) : element :=
  {| tagName := tagName e; classList := classList e;
     innerHTML := html; listeners := listeners e |}.

Definition addEventListener (type : event_type) (l : listener) (e : element)
  : element :=
  {| tagName := tagName e; classList := classList e;
     innerHTML := innerHTML e; listeners := listeners e ++ [(type, l)] |}.

(** The body of the loop up to [appendChild]: the star built for counter [i]. *)
Definition star (i : Z) : element :=
  let star := createElement "span" in
  let star := classList_add "star" star in
  let star := set_innerHTML "★" star in
  let star := addEventListener mouseover (OnMouseover i) star in
  let star := addEventListener mouseout OnMouseout star in
  let star := addEventListener click (OnClick i) star in
  star.

Definition appendChild (child : element) (s : state) : state :=
  {| starContainer := starContainer s ++ [child];
     ratingValue := ratingValue s; rating := rating s |}.

(** [for (let i = 0; i < totalStars; i++) { ... }], with a bound on the
    number of iterations. *)
Fixpoint renderStars_loop (fuel : nat) (i totalStars : Z) (s : state) : state :=
  match fuel with
  | O => s
  | S fuel' =>
      if (i <? totalStars)%Z
      then renderStars_loop fuel' (i + 1) totalStars (appendChild (star i) s)
      else s
  end.

Definition renderStars (totalStars : Z) (s : state) : state :=
  let s := {| starContainer := []; ratingValue := ratingValue s;
              rating := rating s |} in
  renderStars_loop (Z.to_nat totalStars) 0 totalStars s.

(** The selector [.star], and the class [filled]. *)
Definition is_star (e : element) : Prop := contains "star" e = true.
Definition is_filled (e : element) : Prop := contains "filled" e = true.

(** [document.querySelectorAll('.star')].  The page itself is not part of
    the sources; its stars are taken to be those of the container. *)
Definition querySelectorAll_star (s : state) : list element :=
  filter is_star (starContainer s).

(** The [forEach] of [highlightStars] over the container: [index] counts
    the elements matched so far, the others are left alone. *)
Fixpoint highlight_from (index rating : Z) (children : list element)
  : list element :=
  match children with
  | [] => []
  | e :: rest =>
      if contains "star" e then
        (if (index <? rating)%Z
         then classList_add "filled" e
         else classList_remove "filled" e)
        :: highlight_from (index + 1) rating rest
      else e :: highlight_from index rating rest
  end.

Definition highlightStars (rating' : Z) (s : state) : state :=
  {| starContainer := highlight_from 0 rating' (starContainer s);
     ratingValue := ratingValue s; rating := rating s |}.

Definition run_listener (l : listener) (s : state) : state :=
  match l with
  | OnMouseover i => highlightStars (i + 1) s
  | OnMouseout => highlightStars (rating s) s
  | OnClick i =>
      let s := {| starContainer := starContainer s;
                  ratingValue := ratingValue s; rating := i + 1 |} in
      {| starContainer := starContainer s;
         ratingValue := string_of_Z (rating s); rating := rating s |}
  end.

(** An event of type [type] on the [k]-th child of the container runs the
    listeners registered on it for that type, in registration order.  There
    is no event on a child that does not exist. *)
Definition dispatch (type : event_type) (k : nat) (s : state) : state :=
  match starContainer s !! k with
  | None => s
  | Some target =>
      foldl (fun s l => run_listener l s) s
        (snd <$> filter (fun tl => fst tl = type) (listeners target))
  end.

(** The page after the script has run, from whatever the page held. *)
Definition loaded (container0 : list element) (text0 : string) : state :=
  renderStars TOTAL_STARS
    {| starContainer := container0; ratingValue := text0; rating := 0 |}.

(** The states the widget goes through. *)
Inductive reachable (container0 : list element) (text0 : string)
  : state -> Prop :=
  | reachable_loaded : reachable container0 text0 (loaded container0 text0)
  | reachable_dispatch type k s :
      reachable container0 text0 s ->
      reachable container0 text0 (dispatch type k s).

(** What [renderStars] registers on the star of counter [i], and the
    listener it registers for an event type. *)
Definition listeners_of (i : Z) : list (event_type * listener) :=
  [ (mouseover, OnMouseover i); (mouseout, OnMouseout); (click, OnClick i) ].

Definition handler (type : event_type) (i : Z) : listener :=
  match type with
  | mouseover => OnMouseover i
  | mouseout => OnMouseout
  | click => OnClick i
  end.

(** The container holds the [TOTAL_STARS] stars with their listeners. *)
Definition wired (s : state) : Prop :=
  listeners <$> starContainer s = listeners_of <$> seqZ 0 TOTAL_STARS.

(** The star of counter [k] as it is shown when the first [r] are filled,
    and the container showing [r] filled stars. *)
Definition paint (r k : Z) : element :=
  if (k <? r)%Z then classList_add "filled" (star k) else star k.

Definition shown (r : Z) : list element := paint r <$> seqZ 0 TOTAL_STARS.

(** What holds of the widget between two events: the container shows a
    number of filled stars, and the text shows the rating once there is one. *)
Definition consistent (text0 : string) (s : state) : Prop :=
  (exists r, (0 <= r <= TOTAL_STARS)%Z /\ starContainer s = shown r)
  /\ ((rating s = 0%Z /\ ratingValue s = text0)
      \/ ((1 <= rating s <= TOTAL_STARS)%Z
          /\ ratingValue s = string_of_Z (rating s))).

End StarRating.

(** ** use-boolean-like-pro/app.js *)

Module Discount.

(** A JavaScript number is an IEEE 754 binary64 value. *)
Definition number : Type := spec_float.

Definition prec : Z := 53.
Definition emax : Z := 1024.

Definition mul (x y : number) : number := SFmul prec emax x y.
Definition sub (x y : number) : number := SFsub prec emax x y.

(** [x === y] on numbers. *)
Definition strict_eq (x y : number) : bool := SFeqb x y.

(** The literals of the snippet. *)
Definition zero : number := S754_zero false.
Definition one_tenth : number := S754_finite false 7205759403792794 (-56).
Definition two_tenths : number := S754_finite false 7205759403792794 (-55).
Definition eighty : number := S754_finite false 5629499534213120 (-46).
Definition ninety : number := S754_finite false 6333186975989760 (-46).
Definition hundred : number := S754_finite false 7036874417766400 (-46).
Definition infinity : number := S754_infinity false.

(** What a caller may pass for [discount]: nothing, [null], or a number;
    values of other types are left out. *)
Inductive value : Type :=
  | Undefined
  | Null
  | Number (x : number).

(** [v ?? default] *)
Definition nullish (v : value) (default : number) : number :=
  match v with
  | Undefined | Null => default
  | Number x => x
  end.

Definition getDiscount (price : number) (discount : value) : number :=
  let discount := nullish discount one_tenth in
  sub price (mul price discount).

Definition is_finite (x : number) : bool :=
  match x with
  | S754_zero _ | S754_finite _ _ _ => true
  | S754_infinity _ | S754_nan => false
  end.

(** The first version of [getDiscount], kept as a comment in the source:
    [discount = discount || 0.1].  A number is falsy when it is [0], [-0]
    or [NaN]. *)
Definition is_falsy (x : number) : bool :=
  match x with
  | S754_zero _ | S754_nan => true
  | S754_infinity _ | S754_finite _ _ _ => false
  end.

Definition logical_or (v : value) (default : number) : number :=
  match v with
  | Undefined | Null => default
  | Number x => if is_falsy x then default else x
  end.

Definition getDiscount_with_or (price : number) (discount : value) : number :=
  let discount := logical_or discount one_tenth in
  sub price (mul price discount).

(** The sign bit of a number that is not [NaN]. *)
Definition is_negative (x : number) : bool :=
  match x with
  | S754_zero s | S754_infinity s | S754_finite s _ _ => s
  | S754_nan => false
  end.

End Discount.

(** ** The Next.js auth layout *)

Module Auth.

(** A server component either returns its tree or leaves through
    [redirect], which throws and never returns. *)
Inductive control (A : Type) : Type :=
  | Return (a : A)
  | Redirect (url : string).
Arguments Return {A} a.
Arguments Redirect {A} url.

Definition then_ {A B} (c : control A) (k : A -> control B) : control B :=
  match c with
  | Return a => k a
  | Redirect url => Redirect url
  end.

Definition redirect (url : string) : control unit := Redirect url.

(** [<div>{children}</div>] *)
Inductive jsx (node : Type) : Type :=
  | Div (children : node).
Arguments Div {node} children.

Section Layout.
Context {headers session node : Type}.

(** [auth.api.getSession]: the session of the request, or [null]. *)
Variable getSession : headers -> option session.

Definition truthy (s : option session) : bool :=
  match s with Some _ => true | None => false end.

Definition AuthLayout (request_headers : headers) (children : node)
  : control (jsx node) :=
  let session := getSession request_headers in
  then_ (if truthy session then redirect "/dashboard" else Return tt)
    (fun _ => Return (Div children)).

End Layout.
End Auth.

(** ** js-methods/reduce.js *)

Module Reduce.

(** [array.reduce(callback, initialValue)] on an array without holes, for
    a callback that uses the accumulator and the element. *)
Fixpoint reduce {A B : Type} (callback : B -> A -> completion B)
    (array : list A) (initialValue : B) : completion B :=
  match array with
  | [] => Normal initialValue
  | element :: rest =>
      accumulator ← callback initialValue element ;
      reduce callback rest accumulator
  end.

(** The names a plain object inherits from [Object.prototype]; each holds
    a function, [__proto__] the prototype itself. *)
Definition Object_prototype : list string :=
  [ "constructor"; "__defineGetter__"; "__defineSetter__"; "hasOwnProperty";
    "__lookupGetter__"; "__lookupSetter__"; "isPrototypeOf";
    "propertyIsEnumerable"; "toString"; "valueOf"; "__proto__";
    "toLocaleString" ].

Module Users.

Record User : Type := { name : string; country : string }.

Definition users : list User :=
  [ {| name := "John"; country := "USA" |};
    {| name := "Alice"; country := "Canada" |};
    {| name := "Bob"; country := "USA" |};
    {| name := "Eve"; country := "Canada" |} ].

(** The reducer of [grouped], on the own properties of the accumulator.
    Reading a key the accumulator does not own finds what it inherits: for
    a name of [Object.prototype] that is not an array, it is truthy, so it
    is kept, and [push] on it is not a function. *)
Definition group (accumulator : gmap string (list User)) (user : User)
  : completion (gmap string (list User)) :=
  match accumulator !! country user with
  | Some array => Normal (<[country user := array ++ [user]]> accumulator)
  | None =>
      if bool_decide (country user ∈ Object_prototype)
      then Throw (TypeError "accumulator[user.country].push is not a function")
      else Normal (<[country user := [] ++ [user]]> accumulator)
  end.

Definition grouped (users : list User) : completion (gmap string (list User)) :=
  reduce group users ∅.

Definition plain (u : User) : Prop := country u ∉ Object_prototype.

Definition from (c : string) (users : list User) : list User :=
  filter (fun u => country u = c) users.

End Users.

Module Products.

Record Product : Type := {
  id : Z;
  name : string;
  price : Z;
  quantity : Z
}.

Definition products : list Product :=
  [ {| id := 101; name := "Laptop"; price := 1000; quantity := 2 |};
    {| id := 102; name := "Phone"; price := 500; quantity := 3 |};
    {| id := 103; name := "Tablet"; price := 300; quantity := 1 |} ].

(** The reducer of [indexMap]: [accumulator[product.id] = product].  The
    key of an integer is its decimal string, so the ids are the keys. *)
Definition index (accumulator : gmap Z Product) (product : Product)
  : completion (gmap Z Product) :=
  Normal (<[id product := product]> accumulator).

Definition indexMap (products : list Product) : completion (gmap Z Product) :=
  reduce index products ∅.

Definition with_id (i : Z) (products : list Product) : list Product :=
  filter (fun p => id p = i) products.

End Products.
End Reduce.

(** ** The notes on functions *)

Module Functions.

Record User : Type := { id : Z; name : string; isActive : bool }.

(** [for (const user of users) { if (user.isActive) return user } return null] *)
Fixpoint findActiveUser (users : list User) : option User :=
  match users with
  | [] => None
  | user :: rest => if isActive user then Some user else findActiveUser rest
  end.

(** [if (!user) return false; return true], on a user or [null]. *)
Definition validateUser (user : option User) : bool :=
  match user with
  | None => false
  | Some _ => true
  end.

End Functions.

(** * Part II: properties *)

(** ** Decimal rendering *)

Example string_of_Z_examples :
  string_of_Z 0 = "0" /\ string_of_Z 5 = "5" /\ string_of_Z 1024 = "1024"
  /\ string_of_Z (-37) = "-37".
Proof. repeat split. Qed.

(** ** Facts about [myMap] *)

Module JsMapFacts.
Import JsMap.

Section Facts.
Context {A B T : Type} (undefined : A).
Implicit Types (this : array A) (callback : @arg A B T) (thisArgs : T).

(** *** The loop on an array that is left alone *)

(** With a callback that leaves the array alone and enough tests allowed,
    the loop makes the turns that are left and ends by its test. *)
Lemma loop_turns this callback thisArgs steps fuel i result :
  preserves callback ->
  i + steps = length this ->
  steps < fuel ->
  loop undefined callback thisArgs fuel this i result
  = Some (turns undefined this callback thisArgs steps i result).
Proof.
  intros Hkeeps. revert fuel i result.
  induction steps as [|steps IH]; intros [|fuel] i result Hi Hfuel;
    try lia; simpl.
  - by rewrite decide_False by lia.
  - rewrite decide_True by lia.
    pose proof (Hkeeps thisArgs (get undefined this i) i this) as Hsame.
    destruct (call callback thisArgs (get undefined this i) i this)
      as [this' [v|e]]; simpl in *; subst this'; [|done].
    apply IH; lia.
Qed.

(** Whatever the number of tests allowed, what the loop gives, if it
    gives anything, is what the turns that are left give. *)
Lemma loop_is_turns this callback thisArgs fuel i result c :
  preserves callback ->
  i <= length this ->
  loop undefined callback thisArgs fuel this i result = Some c ->
  c = turns undefined this callback thisArgs (length this - i) i result.
Proof.
  intros Hkeeps. revert i result.
  induction fuel as [|fuel IH]; intros i result Hi; simpl; [done|].
  case_decide as Hlt.
  - replace (length this - i) with (S (length this - S i)) by lia.
    pose proof (Hkeeps thisArgs (get undefined this i) i this) as Hsame.
    simpl.
    destruct (call callback thisArgs (get undefined this i) i this)
      as [this' [v|e]]; simpl in *; subst this'.
    + apply IH. lia.
    + by intros [= <-].
  - replace (length this - i) with 0 by lia. by intros [= <-].
Qed.

Lemma turns_length this callback thisArgs steps i result r :
  turns undefined this callback thisArgs steps i result = Normal r ->
  length r = length result + steps.
Proof.
  revert i result.
  induction steps as [|steps IH]; intros i result; simpl.
  - intros [= <-]. lia.
  - unfold mbind, completion_bind.
    destruct (call callback thisArgs (get undefined this i) i this).2 as [v|e];
      simpl; [|done].
    intros Hturns. apply IH in Hturns. rewrite length_app in Hturns.
    simpl in Hturns. lia.
Qed.

(** A throw of the turns is a throw of the callback at one of them. *)
Lemma turns_throw this callback thisArgs steps i result e :
  turns undefined this callback thisArgs steps i result = Throw e ->
  exists j, i <= j < i + steps
    /\ (call callback thisArgs (get undefined this j) j this).2 = Throw e.
Proof.
  revert i result.
  induction steps as [|steps IH]; intros i result; simpl; [done|].
  unfold mbind, completion_bind.
  destruct (call callback thisArgs (get undefined this i) i this).2 as [v|e']
    eqn:Hcall; simpl.
  - intros Hturns. destruct (IH _ _ Hturns) as (j & Hj & Hthrow).
    exists j. split; [lia|done].
  - intros [= ->]. exists i. split; [lia|done].
Qed.

Lemma turns_normal this callback thisArgs steps i result :
  (forall j, i <= j < i + steps ->
     is_normal (call callback thisArgs (get undefined this j) j this).2 = true) ->
  exists r, turns undefined this callback thisArgs steps i result = Normal r.
Proof.
  revert i result.
  induction steps as [|steps IH]; intros i result Hpure; simpl; [by eexists|].
  unfold mbind, completion_bind.
  pose proof (Hpure i ltac:(lia)) as Hi.
  destruct (call callback thisArgs (get undefined this i) i this).2 as [v|e];
    [|done].
  simpl. apply IH. intros j Hj. apply Hpure. lia.
Qed.

(** What the turns return keeps what was pushed before and adds, for each
    turn, the value of the call at that index. *)
Lemma turns_lookup this callback thisArgs steps i result r :
  turns undefined this callback thisArgs steps i result = Normal r ->
  (forall j, j < length result -> r !! j = result !! j)
  /\ (forall j, j < steps ->
       exists v,
         (call callback thisArgs (get undefined this (i + j)) (i + j) this).2
           = Normal v
         /\ r !! (length result + j) = Some v).
Proof.
  revert i result.
  induction steps as [|steps IH]; intros i result; simpl.
  - intros [= <-]. split; [done|lia].
  - unfold mbind, completion_bind.
    destruct (call callback thisArgs (get undefined this i) i this).2 as [v|e]
      eqn:Hcall; simpl; [|done].
    intros Hturns. destruct (IH _ _ Hturns) as [Hkeep Hnew].
    rewrite length_app in Hkeep, Hnew. simpl in Hkeep, Hnew.
    split.
    + intros j Hj. rewrite Hkeep by lia. by rewrite lookup_app_l.
    + intros [|j] Hj.
      * exists v. rewrite !Nat.add_0_r. split; [done|].
        rewrite Hkeep by lia. by rewrite list_lookup_middle.
      * destruct (Hnew j ltac:(lia)) as (w & Hw & Hr).
        exists w. replace (i + S j) with (S i + j) by lia.
        split; [done|]. by replace (length result + S j)
          with (length result + 1 + j) by lia.
Qed.

(** The turns on a hole-free array build, after what was already pushed,
    what the built-in builds from the same index, when the function leaves
    the array alone and is called through the inherited [call]. *)
Lemma turns_builtin_from this source (f : @fn A B T) thisArgs steps i result :
  leaves_alone f ->
  no_holes this ->
  i + steps = length this ->
  map Some <$> turns undefined this (Callable source f FunctionPrototypeCall)
                 thisArgs steps i result
  = (map Some result ++.)
      <$> builtin_map_from (Callable source f FunctionPrototypeCall)
            thisArgs steps i this.
Proof.
  intros Halone Hdense. revert i result.
  induction steps as [|steps IH]; intros i result Hi.
  - simpl. unfold fmap, completion_fmap, cmap; simpl. by rewrite app_nil_r.
  - destruct (lookup_lt_is_Some_2 this i ltac:(lia)) as [slot Hslot].
    destruct (proj1 (Forall_lookup _ _) Hdense i slot Hslot) as [a ->].
    cbn [turns builtin_map_from]. unfold get. rewrite Hslot. cbn [call Call].
    pose proof (Halone thisArgs a i this) as Hsame.
    destruct (f thisArgs a i this) as [this' [v|e]]; simpl in Hsame;
      subst this'; [|done].
    unfold mbind, completion_bind. cbn [snd cbind].
    rewrite (IH (S i) (result ++ [v])) by lia.
    destruct (builtin_map_from (Callable source f FunctionPrototypeCall)
                thisArgs steps (S i) this) as [tail|e]; [|done].
    unfold fmap, completion_fmap, cmap; simpl.
    by rewrite map_app, <- app_assoc.
Qed.

Lemma leaves_alone_preserves source (f : @fn A B T) :
  leaves_alone f -> preserves (Callable source f FunctionPrototypeCall).
Proof. intros Halone t x i arr. apply Halone. Qed.




(** The loop throws what the call throws at the first turn where it
    throws, the array being at each turn as the turns before have left it. *)
Lemma loop_first_throw callback thisArgs k fuel this i result e :
  k < fuel ->
  (forall m, m <= k -> i + m < length (live undefined callback thisArgs i this m)) ->
  (forall m, m < k ->
     is_normal
       (call callback thisArgs
          (get undefined (live undefined callback thisArgs i this m) (i + m))
          (i + m) (live undefined callback thisArgs i this m)).2 = true) ->
  (call callback thisArgs
     (get undefined (live undefined callback thisArgs i this k) (i + k))
     (i + k) (live undefined callback thisArgs i this k)).2 = Throw e ->
  loop undefined callback thisArgs fuel this i result = Some (Throw e).
Proof.
  revert fuel this i result.
  induction k as [|k IH]; intros [|fuel] this i result Hfuel Hin Hbefore Hthrow;
    try lia; simpl.
  - pose proof (Hin 0 ltac:(lia)) as H0. simpl in *.
    rewrite Nat.add_0_r in *. rewrite decide_True by done.
    destruct (call callback thisArgs (get undefined this i) i this)
      as [this' c]. simpl in Hthrow. by rewrite Hthrow.
  - pose proof (Hin 0 ltac:(lia)) as H0.
    pose proof (Hbefore 0 ltac:(lia)) as Hnormal. simpl in H0, Hnormal.
    rewrite Nat.add_0_r in *. rewrite decide_True by done.
    destruct (call callback thisArgs (get undefined this i) i this)
      as [this' [v|e']] eqn:Hcall; simpl in Hnormal; [|done].
    apply IH; [lia| | |].
    + intros m Hm. specialize (Hin (S m) ltac:(lia)).
      simpl in Hin. rewrite Hcall in Hin. simpl in Hin.
      by replace (S i + m) with (i + S m) by lia.
    + intros m Hm. specialize (Hbefore (S m) ltac:(lia)).
      simpl in Hbefore. rewrite Hcall in Hbefore. simpl in Hbefore.
      by replace (S i + m) with (i + S m) by lia.
    + simpl in Hthrow. rewrite Hcall in Hthrow. simpl in Hthrow.
      by replace (S i + k) with (i + S k) by lia.
Qed.

(** X2: the callback is called in ascending order of index and [myMap]
    stops at its first throw: if the call throws [e] at index [j] and
    returns at every index below [j], [myMap] throws [e].  The array is at
    each index as the calls before have left it, and every index up to [j]
    is below its length when its turn comes. *)
Theorem myMap_first_throw fuel this source (f : @fn A B T) property thisArgs j e :
  j < fuel ->
  (forall k, k <= j ->
     k < length (live undefined (Callable source f property) thisArgs 0 this k)) ->
  (call (Callable source f property) thisArgs
     (get undefined (live undefined (Callable source f property) thisArgs 0 this j) j)
     j (live undefined (Callable source f property) thisArgs 0 this j)).2
    = Throw e ->
  (forall k, k < j ->
     is_normal
       (call (Callable source f property) thisArgs
          (get undefined
             (live undefined (Callable source f property) thisArgs 0 this k) k)
          k (live undefined (Callable source f property) thisArgs 0 this k)).2
     = true) ->
  myMap undefined fuel this (Callable source f property) thisArgs
  = Some (Throw e).
Proof.
  intros Hfuel Hin Hthrow Hbefore. unfold myMap. simpl.
  by apply (loop_first_throw _ thisArgs j fuel this 0 [] e).
Qed.

(** On an array that is left alone, the array is at every turn what it
    was. *)
Lemma live_preserves callback thisArgs i this k :
  preserves callback -> live undefined callback thisArgs i this k = this.
Proof.
  intros Hkeeps. revert i.
  induction k as [|k IH]; intros i; simpl; [done|].
  by rewrite Hkeeps, IH.
Qed.

(** For a callback whose calls leave the array alone, the array of every
    turn is the array [myMap] was called on. *)
Lemma loop_first_throw_unchanged this callback thisArgs fuel j e result :
  preserves callback ->
  j < fuel ->
  j < length this ->
  (call callback thisArgs (get undefined this j) j this).2 = Throw e ->
  (forall k, k < j ->
     is_normal (call callback thisArgs (get undefined this k) k this).2 = true) ->
  loop undefined callback thisArgs fuel this 0 result = Some (Throw e).
Proof.
  intros Hkeeps Hfuel Hj Hthrow Hbefore.
  apply (loop_first_throw callback thisArgs j); [done| | |].
  - intros m Hm. rewrite live_preserves by done. lia.
  - intros m Hm. rewrite live_preserves by done. by apply Hbefore.
  - by rewrite live_preserves.
Qed.

End Facts.

(** Two runs of turns whose calls agree index by index build the same
    array, whatever the arrays they read. *)
Lemma turns_ext {A1 A2 B T : Type} (u1 : A1) (u2 : A2)
    (this1 : array A1) (this2 : array A2)
    (cb1 : @arg A1 B T) (cb2 : @arg A2 B T) thisArgs steps i result :
  (forall j, i <= j < i + steps ->
     (call cb1 thisArgs (get u1 this1 j) j this1).2
     = (call cb2 thisArgs (get u2 this2 j) j this2).2) ->
  turns u1 this1 cb1 thisArgs steps i result
  = turns u2 this2 cb2 thisArgs steps i result.
Proof.
  revert i result.
  induction steps as [|steps IH]; intros i result Hsame; simpl; [done|].
  rewrite (Hsame i) by lia. unfold mbind, completion_bind.
  destruct (call cb2 thisArgs (get u2 this2 i) i this2).2 as [v|e]; [|done].
  simpl. apply IH. intros j Hj. apply Hsame. lia.
Qed.


(** The call of the snippet itself. *)
Example result2_value :
  result2
  = Some (Normal [ {| fullName := "John Doe" |}; {| fullName := "Alice Doe" |} ]).
Proof. reflexivity. Qed.

(** With a hole the two differ: [myMap] reads [undefined] there and calls
    the callback on it, the built-in skips the index. *)
Example myMap_on_a_hole :
  myMap Undefined 2 [None] (Callable "to_named" to_named FunctionPrototypeCall) tt
    = Some (Throw
        (TypeError "Cannot read properties of undefined (reading 'fname')"))
  /\ builtin_map [None] (Callable "to_named" to_named FunctionPrototypeCall) tt
     = Normal [None].
Proof. split; reflexivity. Qed.

(** A callback that empties the array ends the loop after its first turn,
    while the built-in, which has read the length, leaves two holes. *)
Example myMap_emptying :
  myMap VUndefined 4 [Some (VNumber 1); Some (VNumber 2); Some (VNumber 3)]
    (Callable "emptying" emptying FunctionPrototypeCall) tt
    = Some (Normal [VNumber 1])
  /\ builtin_map [Some (VNumber 1); Some (VNumber 2); Some (VNumber 3)]
       (Callable "emptying" emptying FunctionPrototypeCall) tt
     = Normal [Some (VNumber 1); None; None].
Proof. split; reflexivity. Qed.

(** A callback that adds an element at every turn keeps the test of the
    loop true for ever. *)
Lemma loop_growing fuel (this : array value) i result :
  i < length this ->
  loop VUndefined (Callable "growing" growing FunctionPrototypeCall) tt
    fuel this i result = None.
Proof.
  revert this i result.
  induction fuel as [|fuel IH]; intros this i result Hi; simpl; [done|].
  rewrite decide_True by done. apply IH. rewrite length_app. simpl. lia.
Qed.






Lemma myMap_first_throw_witness :
  myMap Undefined 4 [Some (User 1 "John" "Doe"); None; Some Undefined]
    (Callable "to_named" to_named FunctionPrototypeCall) tt
  = Some (Throw
      (TypeError "Cannot read properties of undefined (reading 'fname')")).
Proof.
  apply (myMap_first_throw Undefined 4
           [Some (User 1 "John" "Doe"); None; Some Undefined]
           "to_named" to_named FunctionPrototypeCall tt 1).
  - lia.
  - intros [|[|k]] Hk; simpl; lia.
  - reflexivity.
  - intros [|k] Hk; [reflexivity|lia].
Defined.


End JsMapFacts.

(** ** Facts about [getDiscount] *)

Module DiscountFacts.
Import Discount.

Example getDiscount_100_0 : getDiscount hundred (Number zero) = hundred.
Proof. reflexivity. Qed.

Example getDiscount_100_02 : getDiscount hundred (Number two_tenths) = eighty.
Proof. vm_compute. reflexivity. Qed.

Example getDiscount_100_default : getDiscount hundred Undefined = ninety.
Proof. vm_compute. reflexivity. Qed.

Lemma strict_eq_finite_refl s m e :
  strict_eq (S754_finite s m e) (S754_finite s m e) = true.
Proof.
  unfold strict_eq, SFeqb, SFcompare.
  destruct s; rewrite Z.compare_refl, Pos.compare_cont_refl; reflexivity.
Qed.

(** C9, its last clause as stated: at [p = Infinity] the result of
    [getDiscount(p, 0)] is [NaN], not [p]. *)
Lemma getDiscount_infinity_0 :
  getDiscount infinity (Number zero) = S754_nan
  /\ strict_eq (getDiscount infinity (Number zero)) infinity = false.
Proof. split; reflexivity. Qed.

(** C9, amended: the default 0.1 replaces [discount] exactly when it is
    [undefined] or [null]; every number [d], zero included, is used as it
    is, the result being [price - price * d] in binary64 arithmetic; and
    [getDiscount(p, 0) === p] for every finite [p]. *)
Theorem getDiscount_nullish_default (price d : number) :
  getDiscount price Undefined = sub price (mul price one_tenth)
  /\ getDiscount price Null = sub price (mul price one_tenth)
  /\ getDiscount price (Number d) = sub price (mul price d)
  /\ (is_finite price = true ->
      strict_eq (getDiscount price (Number zero)) price = true).
Proof.
  repeat split.
  destruct price as [[]| | |s m e]; intros Hfinite; try discriminate.
  - reflexivity.
  - reflexivity.
  - unfold getDiscount, nullish, mul, sub, zero. cbn [SFmul SFsub].
    apply strict_eq_finite_refl.
Qed.

Lemma getDiscount_nullish_default_witness :
  is_finite hundred = true
  /\ strict_eq (getDiscount hundred (Number zero)) hundred = true.
Proof.
  split; [reflexivity|].
  exact (proj2 (proj2 (proj2
    (getDiscount_nullish_default hundred zero))) eq_refl).
Defined.

(** X9: for a [discount] that is [undefined], [null] or a number, the
    version with [||] and the version with [??] are the same function of the
    price exactly when [discount] is not one of the falsy numbers [0], [-0]
    and [NaN]; for those the first one takes 10% off, so that a discount of
    0 on 100 gave 90. *)
Theorem getDiscount_or_vs_nullish (discount : value) :
  ((forall price, getDiscount_with_or price discount = getDiscount price discount)
   <-> match discount with
       | Number d => is_falsy d = false
       | Undefined | Null => True
       end)
  /\ getDiscount_with_or hundred (Number zero) = ninety.
Proof.
  split; [|by vm_compute].
  split.
  - intros Hsame. specialize (Hsame hundred).
    destruct discount as [| |[[]|s| |s m e]]; try done; by vm_compute in Hsame.
  - intros Htruthy price.
    destruct discount as [| |d]; try done.
    unfold getDiscount_with_or, getDiscount, logical_or, nullish.
    by rewrite Htruthy.
Qed.

(** X10: [getDiscount] never throws on numbers, it answers [NaN]: when
    the price is [NaN], when the discount is [NaN], and when the price is
    infinite and the discount is missing, zero or positive. *)
Theorem getDiscount_nan (price d : number) (s : bool) :
  getDiscount S754_nan (Number d) = S754_nan
  /\ getDiscount S754_nan Undefined = S754_nan
  /\ getDiscount price (Number S754_nan) = S754_nan
  /\ getDiscount (S754_infinity s) Undefined = S754_nan
  /\ getDiscount (S754_infinity s) Null = S754_nan
  /\ (is_negative d = false ->
      getDiscount (S754_infinity s) (Number d) = S754_nan).
Proof.
  repeat split.
  - by destruct price.
  - by destruct s.
  - by destruct s.
  - destruct d as [sd|sd| |sd m e]; simpl; intros Hsign; subst;
      by destruct s.
Qed.

Lemma getDiscount_nan_witness :
  is_negative two_tenths = false
  /\ getDiscount infinity (Number two_tenths) = S754_nan.
Proof.
  split; [reflexivity|].
  exact (proj2 (proj2 (proj2 (proj2 (proj2
    (getDiscount_nan zero two_tenths false))))) eq_refl).
Defined.

End DiscountFacts.

(** ** Facts about [AuthLayout] *)

Module AuthFacts.
Import Auth.

Section Facts.
Context {headers session node : Type}.
Variable getSession : headers -> option session.

(** C10: [AuthLayout] redirects to [/dashboard] exactly when the request
    has a session; with a session it returns no tree at all, without one it
    does not redirect and returns the children, wrapped in a [div]. *)
Theorem AuthLayout_redirects_iff_session (h : headers) (children : node) :
  (AuthLayout getSession h children = Redirect "/dashboard"
     <-> is_Some (getSession h))
  /\ (is_Some (getSession h) ->
       forall tree, AuthLayout getSession h children <> Return tree)
  /\ (getSession h = None ->
       AuthLayout getSession h children = Return (Div children)
       /\ forall url, AuthLayout getSession h children <> Redirect url).
Proof.
  unfold AuthLayout.
  destruct (getSession h) as [s|]; simpl.
  - split; [split; [by eexists|done]|].
    split; [done|]. intros [=].
  - split; [split; [done|by intros [? [=]]]|].
    split; [by intros [? [=]]|]. done.
Qed.

End Facts.

(** A request carries its session in a cookie, or carries none. *)
Lemma AuthLayout_redirects_iff_session_witness :
  AuthLayout (fun cookie : option string => cookie) None "page"
    = Return (Div "page")
  /\ AuthLayout (fun cookie : option string => cookie) (Some "alice") "page"
     = Redirect "/dashboard".
Proof.
  split.
  - exact (proj1 (proj2 (proj2
      (AuthLayout_redirects_iff_session (fun cookie : option string => cookie)
         None "page")) eq_refl)).
  - exact (proj2 (proj1
      (AuthLayout_redirects_iff_session (fun cookie : option string => cookie)
         (Some "alice") "page")) (ex_intro _ "alice" eq_refl)).
Defined.

End AuthFacts.

(** ** Facts about the file-upload example *)

Module FileUploadFacts.
Import FileUpload.

Example upload_s3 :
  run (file_upload (QString "s3"))
  = [ PromiseCreated;
      ConsoleLog "Uploading sample-file.mp4 to S3 in bucket my-s3-bucket...";
      PromiseSettled true;
      Response 200 "File uploaded successfully!" ].
Proof. reflexivity. Qed.

Example upload_fake :
  run (FileController_upload {| uploader := FakeUploader |})
  = [ PromiseCreated; PromiseSettled true;
      Response 200 "File uploaded successfully!" ].
Proof. reflexivity. Qed.

Example upload_waiting :
  run (FileController_upload {| uploader := WaitingUploader |})
  = [ PromiseCreated;
      Response 200 "File uploaded successfully!";
      ConsoleLog "Uploaded sample-file.mp4";
      PromiseSettled true ].
Proof. reflexivity. Qed.

Example upload_fixed_waiting :
  run (FileController_upload_fixed {| uploader := WaitingUploader |})
  = [ PromiseCreated;
      ConsoleLog "Uploaded sample-file.mp4";
      PromiseSettled true;
      PromiseAwaited;
      Response 200 "File uploaded successfully!" ].
Proof. reflexivity. Qed.

(** *** The route *)

Lemma strict_eq_true v s : strict_eq v s = true <-> v = QString s.
Proof.
  destruct v as [|s'| |]; simpl; try (split; [discriminate|intros [=]]).
  rewrite String.eqb_eq. split; [by intros ->|by intros [= ->]].
Qed.

(** C3: the route uploads through a new [S3Uploader] when the parameter
    [uploader] is the string [s3], through a new [ClUploader] when it is
    [cloudinary], and for any other value, or none, it only answers 400 with
    the message [Invalid uploader specified]: nothing is uploaded. *)
Theorem file_upload_dispatch (uploaderStr : query_value) :
  (uploaderStr = QString "s3" ->
     file_upload uploaderStr
       = FileController_upload {| uploader := S3Uploader "my-s3-bucket" |}
     /\ run (file_upload uploaderStr)
       = [ PromiseCreated;
           ConsoleLog "Uploading sample-file.mp4 to S3 in bucket my-s3-bucket...";
           PromiseSettled true;
           Response 200 "File uploaded successfully!" ])
  /\ (uploaderStr = QString "cloudinary" ->
     file_upload uploaderStr
       = FileController_upload
           {| uploader := ClUploader "my-cloudinary-bucket" |}
     /\ run (file_upload uploaderStr)
       = [ PromiseCreated;
           ConsoleLog
             "Uploading sample-file.mp4 to Cloudinary in bucket my-cloudinary-bucket...";
           PromiseSettled true;
           Response 200 "File uploaded successfully!" ])
  /\ (uploaderStr <> QString "s3" -> uploaderStr <> QString "cloudinary" ->
     file_upload uploaderStr
       = [ ResStatus 400; ResJson "Invalid uploader specified" ]
     /\ run (file_upload uploaderStr)
       = [ Response 400 "Invalid uploader specified" ]).
Proof.
  split; [by intros ->|]. split; [by intros ->|].
  intros Hs3 Hcl. unfold file_upload.
  destruct (strict_eq uploaderStr "s3") eqn:E1;
    [by apply strict_eq_true in E1|].
  destruct (strict_eq uploaderStr "cloudinary") eqn:E2;
    [by apply strict_eq_true in E2|].
  done.
Qed.

Lemma file_upload_dispatch_witness :
  QArray ["s3"; "cloudinary"] <> QString "s3"
  /\ QArray ["s3"; "cloudinary"] <> QString "cloudinary"
  /\ run (file_upload (QArray ["s3"; "cloudinary"]))
     = [ Response 400 "Invalid uploader specified" ].
Proof.
  assert (H1 : QArray ["s3"; "cloudinary"] <> QString "s3") by discriminate.
  assert (H2 : QArray ["s3"; "cloudinary"] <> QString "cloudinary")
    by discriminate.
  split; [exact H1|]. split; [exact H2|].
  exact (proj2 (proj2 (proj2
    (file_upload_dispatch (QArray ["s3"; "cloudinary"]))) H1 H2)).
Defined.

(** *** The promise of [upload] *)

Lemma count_app e (t1 t2 : list event) :
  count e (t1 ++ t2) = count e t1 + count e t2.
Proof. unfold count. by rewrite filter_app, length_app. Qed.

Lemma count_of_body e (t : list event) :
  ¬ of_body e -> Forall of_body t -> count e t = 0.
Proof.
  intros He Ht. unfold count.
  induction Ht as [|e' t He' _ IH]; [done|].
  rewrite filter_cons_False; [done|]. by intros ->.
Qed.

Lemma resume_of_body body : Forall of_body (resume body).
Proof. induction body; simpl; repeat constructor; done. Qed.

Lemma start_of_body body : Forall of_body (start body).1.
Proof.
  induction body as [v|line rest IH|rest IH]; simpl.
  - by repeat constructor.
  - destruct (start rest) as [events k]. by constructor.
  - constructor.
Qed.

(** A resumed body ends by settling its promise. *)
Lemma resume_settles body : Exists is_settled (resume body).
Proof.
  induction body as [v|line rest IH|rest IH]; simpl.
  - by constructor.
  - by apply Exists_cons_tl.
  - done.
Qed.

(** A call settles its promise before it returns exactly when it does not
    suspend. *)
Lemma start_settles body :
  match (start body).2 with
  | None => Exists is_settled (start body).1
  | Some _ => ¬ Exists is_settled (start body).1
  end.
Proof.
  induction body as [v|line rest IH|rest IH]; simpl.
  - by constructor.
  - destruct (start rest) as [events [k|]]; simpl in *.
    + rewrite Exists_cons. by intros [[]|?].
    + by apply Exists_cons_tl.
  - by intros ?%Exists_nil.
Qed.

Lemma run_upload (u : Uploader) :
  run (FileController_upload {| uploader := u |})
  = PromiseCreated :: (start (upload u "sample-file.mp4")).1
      ++ Response 200 "File uploaded successfully!"
      :: from_option resume [] (start (upload u "sample-file.mp4")).2.
Proof.
  unfold run, FileController_upload. simpl.
  destruct (start (upload u "sample-file.mp4")) as [events [rest|]]; simpl.
  - by rewrite <- app_assoc, app_nil_r.
  - by rewrite <- app_assoc.
Qed.

Lemma run_upload_fixed (u : Uploader) :
  run (FileController_upload_fixed {| uploader := u |})
  = PromiseCreated :: (start (upload u "sample-file.mp4")).1
      ++ from_option resume [] (start (upload u "sample-file.mp4")).2
      ++ [ PromiseAwaited; Response 200 "File uploaded successfully!" ].
Proof.
  unfold run, FileController_upload_fixed. simpl.
  destruct (start (upload u "sample-file.mp4")) as [events [rest|]]; simpl.
  - by rewrite !app_nil_r, <- !app_assoc.
  - by rewrite !app_nil_r, <- !app_assoc.
Qed.

(** C4: whatever uploader is injected, [FileController.upload] creates one
    promise and never awaits it: the response is sent as soon as the call of
    [uploader.upload] returns, before anything the upload does after its
    first suspension; if the promise is pending then, it settles only after
    the response.  In the version the text gives as the fix, the promise is
    awaited and has settled when the response is sent. *)
Theorem upload_promise_not_awaited (u : Uploader) :
  run (FileController_upload {| uploader := u |})
    = PromiseCreated :: (start (upload u "sample-file.mp4")).1
        ++ Response 200 "File uploaded successfully!"
        :: from_option resume [] (start (upload u "sample-file.mp4")).2
  /\ count PromiseCreated (run (FileController_upload {| uploader := u |})) = 1
  /\ count PromiseAwaited (run (FileController_upload {| uploader := u |})) = 0
  /\ (forall rest,
        (start (upload u "sample-file.mp4")).2 = Some rest ->
        ¬ Exists is_settled (start (upload u "sample-file.mp4")).1
        /\ Exists is_settled (resume rest))
  /\ run (FileController_upload_fixed {| uploader := u |})
      = PromiseCreated :: (start (upload u "sample-file.mp4")).1
          ++ from_option resume [] (start (upload u "sample-file.mp4")).2
          ++ [ PromiseAwaited; Response 200 "File uploaded successfully!" ]
  /\ Exists is_settled
       ((start (upload u "sample-file.mp4")).1
          ++ from_option resume [] (start (upload u "sample-file.mp4")).2)
  /\ count PromiseAwaited
       (run (FileController_upload_fixed {| uploader := u |})) = 1.
Proof.
  rewrite run_upload, run_upload_fixed.
  pose proof (start_of_body (upload u "sample-file.mp4")) as Hnow.
  pose proof (start_settles (upload u "sample-file.mp4")) as Hsettle.
  assert (Hlater : Forall of_body
            (from_option resume [] (start (upload u "sample-file.mp4")).2)).
  { destruct (start (upload u "sample-file.mp4")).2; simpl;
      [apply resume_of_body|constructor]. }
  split; [done|]. split; [|split; [|split; [|split; [done|split]]]].
  - change (PromiseCreated :: ?t) with ([PromiseCreated] ++ t).
    change (Response ?c ?m :: ?t) with ([Response c m] ++ t).
    rewrite !count_app.
    rewrite (count_of_body PromiseCreated _ (fun H => H) Hnow).
    by rewrite (count_of_body PromiseCreated _ (fun H => H) Hlater).
  - change (PromiseCreated :: ?t) with ([PromiseCreated] ++ t).
    change (Response ?c ?m :: ?t) with ([Response c m] ++ t).
    rewrite !count_app.
    rewrite (count_of_body PromiseAwaited _ (fun H => H) Hnow).
    by rewrite (count_of_body PromiseAwaited _ (fun H => H) Hlater).
  - intros rest Hrest. rewrite Hrest in Hsettle.
    split; [done|apply resume_settles].
  - apply Exists_app.
    destruct (start (upload u "sample-file.mp4")).2 as [rest|]; simpl;
      [right; apply resume_settles|by left].
  - change (PromiseCreated :: ?t) with ([PromiseCreated] ++ t).
    rewrite !count_app.
    rewrite (count_of_body PromiseAwaited _ (fun H => H) Hnow).
    by rewrite (count_of_body PromiseAwaited _ (fun H => H) Hlater).
Qed.

Lemma upload_promise_not_awaited_witness :
  (start (upload WaitingUploader "sample-file.mp4")).2
    = Some (Log "Uploaded sample-file.mp4" (Return true))
  /\ ¬ Exists is_settled (start (upload WaitingUploader "sample-file.mp4")).1
  /\ Exists is_settled (resume (Log "Uploaded sample-file.mp4" (Return true))).
Proof.
  split; [reflexivity|].
  exact (proj1 (proj2 (proj2 (proj2
    (upload_promise_not_awaited WaitingUploader)))) _ eq_refl).
Defined.

(** *** Responses *)

Lemma responses_of_body (t : list event) :
  Forall of_body t -> filter is_response t = [].
Proof.
  induction 1 as [|e t He _ IH]; [done|].
  rewrite filter_cons_False; [done|].
  intros Hresponse. by destruct e.
Qed.

Lemma later_of_body (body : async) :
  Forall of_body (from_option resume [] (start body).2).
Proof.
  destruct (start body).2; simpl; [apply resume_of_body|constructor].
Qed.

(** X11: every request to the route gets exactly one response: 200 with
    the success message when [uploader] is [s3] or [cloudinary], 400 with
    [Invalid uploader specified] otherwise. *)
Theorem file_upload_one_response (uploaderStr : query_value) :
  filter is_response (run (file_upload uploaderStr))
  = [ if strict_eq uploaderStr "s3" || strict_eq uploaderStr "cloudinary"
      then Response 200 "File uploaded successfully!"
      else Response 400 "Invalid uploader specified" ].
Proof.
  unfold file_upload.
  destruct (strict_eq uploaderStr "s3"); [done|].
  destruct (strict_eq uploaderStr "cloudinary"); done.
Qed.

(** X12: for every injected uploader whose [upload] fulfils its promise,
    whatever it logs or waits for before and whether it resolves to [true]
    or to [false], the controller sends one response, 200 with the success
    message; so does the version with [await]. *)
Theorem upload_always_reports_success (u : Uploader) :
  filter is_response (run (FileController_upload {| uploader := u |}))
    = [ Response 200 "File uploaded successfully!" ]
  /\ filter is_response (run (FileController_upload_fixed {| uploader := u |}))
    = [ Response 200 "File uploaded successfully!" ].
Proof.
  rewrite run_upload, run_upload_fixed.
  pose proof (responses_of_body _ (start_of_body (upload u "sample-file.mp4")))
    as Hnow.
  pose proof (responses_of_body _ (later_of_body (upload u "sample-file.mp4")))
    as Hlater.
  split.
  - rewrite filter_cons_False by (by intros []).
    rewrite filter_app, Hnow. simpl.
    rewrite filter_cons_True by done. by rewrite Hlater.
  - rewrite filter_cons_False by (by intros []).
    by rewrite !filter_app, Hnow, Hlater.
Qed.

(** X13: when [upload] fulfils its promise without suspending, as in
    [S3Uploader] and [ClUploader] for every bucket and file name, the
    promise has settled when the call returns, and the console and the
    client see the same with and without the [await]. *)
Theorem upload_without_suspension (u : Uploader) :
  (start (upload u "sample-file.mp4")).2 = None ->
  filter is_visible (run (FileController_upload {| uploader := u |}))
    = filter is_visible (run (FileController_upload_fixed {| uploader := u |}))
  /\ Exists is_settled (start (upload u "sample-file.mp4")).1
  /\ (forall bucket filename,
        (start (upload (S3Uploader bucket) filename)).2 = None
        /\ (start (upload (ClUploader bucket) filename)).2 = None).
Proof.
  intros Hdone. rewrite run_upload, run_upload_fixed.
  pose proof (start_settles (upload u "sample-file.mp4")) as Hsettled.
  rewrite Hdone in *. simpl.
  split; [|by split].
  rewrite !(filter_cons_False is_visible PromiseCreated) by (by intros []).
  rewrite !filter_app. f_equal.
Qed.

Lemma upload_without_suspension_witness :
  (start (upload (S3Uploader "my-s3-bucket") "sample-file.mp4")).2 = None
  /\ filter is_visible
       (run (FileController_upload {| uploader := S3Uploader "my-s3-bucket" |}))
     = filter is_visible
         (run (FileController_upload_fixed
                 {| uploader := S3Uploader "my-s3-bucket" |})).
Proof.
  split; [reflexivity|].
  exact (proj1 (upload_without_suspension (S3Uploader "my-s3-bucket") eq_refl)).
Defined.

(** With an uploader that does suspend, the two differ. *)
Example upload_with_suspension :
  filter is_visible (run (FileController_upload {| uploader := WaitingUploader |}))
  <> filter is_visible
       (run (FileController_upload_fixed {| uploader := WaitingUploader |})).
Proof. discriminate. Qed.

(** X14: the factory of the text and the route accept the same names: the
    factory throws [Invalid uploader] exactly for the strings on which the
    route answers 400, and makes an uploader for the others. *)
Theorem uploaderFactory_matches_route (type : string) :
  (uploaderFactory type = ThrowError "Invalid uploader"
   <-> run (file_upload (QString type))
       = [ Response 400 "Invalid uploader specified" ])
  /\ ((exists u, uploaderFactory type = Made u)
      <-> type = "s3" \/ type = "cloudinary").
Proof.
  unfold uploaderFactory, file_upload. simpl.
  destruct (String.eqb_spec type "s3") as [->|Hs3]; simpl.
  - split; [done|]. split; [by left|by eexists].
  - destruct (String.eqb_spec type "cloudinary") as [->|Hcl]; simpl.
    + split; [done|]. split; [by right|by eexists].
    + split; [done|]. split; [by intros [? [=]]|by intros [?|?]].
Qed.

End FileUploadFacts.

(** ** Facts about the star-rating widget *)

Module StarRatingFacts.
Import StarRating.

Example loaded_stars :
  starContainer (loaded [] "0") = star <$> [0; 1; 2; 3; 4]%Z.
Proof. reflexivity. Qed.

Example click_third :
  dispatch click 2 (loaded [] "0")
  = {| starContainer := star <$> [0; 1; 2; 3; 4]%Z;
       ratingValue := "3"; rating := 3 |}.
Proof. reflexivity. Qed.

Example hover_second :
  classList <$> starContainer (dispatch mouseover 1 (loaded [] "0"))
  = [ ["star"; "filled"]; ["star"; "filled"]; ["star"]; ["star"]; ["star"] ].
Proof. reflexivity. Qed.

(** *** Class lists *)

Lemma contains_true token e : contains token e = true <-> token ∈ classList e.
Proof. unfold contains. apply bool_decide_eq_true. Qed.

Lemma contains_false token e : contains token e = false <-> token ∉ classList e.
Proof. unfold contains. apply bool_decide_eq_false. Qed.

Lemma contains_add token token' e :
  contains token' (classList_add token e)
  = if decide (token' = token) then true else contains token' e.
Proof.
  unfold classList_add.
  destruct (contains token e) eqn:Hin.
  - case_decide as Heq; [by subst|done].
  - unfold contains at 1. simpl. case_decide as Heq.
    + subst. apply bool_decide_eq_true.
      rewrite elem_of_app, list_elem_of_singleton. by right.
    + apply bool_decide_ext.
      rewrite elem_of_app, list_elem_of_singleton. tauto.
Qed.

Lemma contains_remove token token' e :
  contains token' (classList_remove token e)
  = if decide (token' = token) then false else contains token' e.
Proof.
  unfold classList_remove, contains. simpl. case_decide as Heq.
  - subst. apply bool_decide_eq_false. rewrite list_elem_of_filter. tauto.
  - apply bool_decide_ext. rewrite list_elem_of_filter. tauto.
Qed.

Lemma listeners_add token e : listeners (classList_add token e) = listeners e.
Proof. unfold classList_add. by destruct (contains token e). Qed.

Lemma classList_add_idemp token e :
  classList_add token (classList_add token e) = classList_add token e.
Proof.
  unfold classList_add at 1.
  by rewrite contains_add, decide_True.
Qed.

Lemma classList_remove_idemp token e :
  classList_remove token (classList_remove token e) = classList_remove token e.
Proof.
  unfold classList_remove. simpl. f_equal.
  apply list_filter_filter_l. done.
Qed.

(** *** Rendering *)

(** With at least as many iterations allowed as the counter is short of
    [totalStars], the loop ends by its own test, having appended one star
    per value of the counter. *)
Lemma renderStars_loop_spec fuel i totalStars s :
  (Z.to_nat (totalStars - i) <= fuel)%nat ->
  renderStars_loop fuel i totalStars s
  = {| starContainer := starContainer s ++ (star <$> seqZ i (totalStars - i));
       ratingValue := ratingValue s; rating := rating s |}.
Proof.
  revert i s.
  induction fuel as [|fuel IH]; intros i s Hfuel; simpl.
  - replace (seqZ i (totalStars - i)) with (@nil Z)
      by (symmetry; apply length_zero_iff_nil; rewrite length_seqZ; lia).
    simpl. rewrite app_nil_r. by destruct s.
  - destruct (Z.ltb_spec i totalStars) as [Hlt|Hge].
    + rewrite IH by lia. simpl.
      rewrite (seqZ_cons i) by lia. simpl.
      rewrite <- app_assoc. simpl.
      by replace (Z.pred (totalStars - i)) with (totalStars - (i + 1))%Z by lia.
    + replace (seqZ i (totalStars - i)) with (@nil Z)
        by (symmetry; apply length_zero_iff_nil; rewrite length_seqZ; lia).
      simpl. rewrite app_nil_r. by destruct s.
Qed.

Lemma renderStars_spec totalStars s :
  renderStars totalStars s
  = {| starContainer := star <$> seqZ 0 totalStars;
       ratingValue := ratingValue s; rating := rating s |}.
Proof.
  unfold renderStars. rewrite renderStars_loop_spec by (simpl; lia).
  simpl. by rewrite Z.sub_0_r.
Qed.

Lemma loaded_spec container0 text0 :
  loaded container0 text0
  = {| starContainer := star <$> seqZ 0 TOTAL_STARS;
       ratingValue := text0; rating := 0 |}.
Proof. unfold loaded. by rewrite renderStars_spec. Qed.



(** *** Highlighting *)

Lemma highlight_from_listeners index r children :
  listeners <$> highlight_from index r children = listeners <$> children.
Proof.
  revert index.
  induction children as [|e rest IH]; intros index; simpl; [done|].
  destruct (contains "star" e); simpl; rewrite IH; [|done].
  destruct (index <? r)%Z; [by rewrite listeners_add|done].
Qed.

Lemma highlight_from_length index r children :
  length (highlight_from index r children) = length children.
Proof.
  revert index.
  induction children as [|e rest IH]; intros index; simpl; [done|].
  destruct (contains "star" e); simpl; by rewrite IH.
Qed.

(** The stars stay the stars, in number and in order. *)
Lemma highlight_from_stars_length index r children :
  length (filter is_star (highlight_from index r children))
  = length (filter is_star children).
Proof.
  revert index.
  induction children as [|e rest IH]; intros index; simpl; [done|].
  destruct (contains "star" e) eqn:Hstar.
  - rewrite (filter_cons_True is_star e) by done.
    rewrite filter_cons_True; [simpl; by rewrite IH|].
    unfold is_star.
    destruct (index <? r)%Z; [rewrite contains_add|rewrite contains_remove];
      by rewrite decide_False.
  - rewrite !filter_cons_False by (unfold is_star; congruence). apply IH.
Qed.

(** The [k]-th star after [highlight_from index r] is filled exactly when
    its index [index + k] is below [r]. *)
Lemma highlight_from_filled index r children k e :
  filter is_star (highlight_from index r children) !! k = Some e ->
  contains "filled" e = true <-> (index + Z.of_nat k < r)%Z.
Proof.
  revert index k.
  induction children as [|c rest IH]; intros index k; simpl; [done|].
  destruct (contains "star" c) eqn:Hstar.
  - rewrite filter_cons_True.
    2:{ unfold is_star.
        destruct (index <? r)%Z; [rewrite contains_add|rewrite contains_remove];
          by rewrite decide_False. }
    destruct k as [|k]; simpl.
    + intros [= <-].
      destruct (Z.ltb_spec index r) as [Hlt|Hge].
      * rewrite contains_add, decide_True by done. split; [lia|done].
      * rewrite contains_remove, decide_True by done. split; [done|lia].
    + intros Hk. rewrite (IH _ _ Hk). lia.
  - rewrite filter_cons_False by (unfold is_star; congruence). apply IH.
Qed.

Lemma highlight_from_idemp index r children :
  highlight_from index r (highlight_from index r children)
  = highlight_from index r children.
Proof.
  revert index.
  induction children as [|c rest IH]; intros index; simpl; [done|].
  destruct (contains "star" c) eqn:Hstar; simpl.
  - destruct (index <? r)%Z eqn:Hlt.
    + rewrite contains_add, decide_False, Hstar by done.
      by rewrite classList_add_idemp, IH.
    + rewrite contains_remove, decide_False, Hstar by done.
      by rewrite classList_remove_idemp, IH.
  - by rewrite Hstar, IH.
Qed.

(** The number of filled stars after [highlight_from index r]. *)
Lemma highlight_from_filled_count index r children :
  Z.of_nat (length (filter is_filled
                      (filter is_star (highlight_from index r children))))
  = Z.max 0 (Z.min (r - index) (Z.of_nat (length (filter is_star children)))).
Proof.
  revert index.
  induction children as [|c rest IH]; intros index; simpl; [lia|].
  destruct (contains "star" c) eqn:Hstar.
  - rewrite (filter_cons_True is_star c rest) by done.
    rewrite (filter_cons_True is_star).
    2:{ unfold is_star.
        destruct (index <? r)%Z; [rewrite contains_add|rewrite contains_remove];
          by rewrite decide_False. }
    destruct (Z.ltb_spec index r) as [Hlt|Hge].
    + rewrite filter_cons_True
        by (unfold is_filled; by rewrite contains_add, decide_True).
      simpl length. rewrite !Nat2Z.inj_succ, IH. lia.
    + rewrite filter_cons_False
        by (unfold is_filled; by rewrite contains_remove, decide_True).
      simpl length. rewrite IH. lia.
  - rewrite !(filter_cons_False is_star) by (unfold is_star; congruence).
    apply IH.
Qed.

(** *** Events *)

Lemma highlightStars_wired r s : wired s -> wired (highlightStars r s).
Proof.
  unfold wired, highlightStars. simpl. by rewrite highlight_from_listeners.
Qed.

Lemma run_listener_wired l s : wired s -> wired (run_listener l s).
Proof.
  destruct l; simpl; try apply highlightStars_wired. done.
Qed.

Lemma loaded_wired container0 text0 : wired (loaded container0 text0).
Proof. by rewrite loaded_spec. Qed.

(** On a page whose stars are wired, an event on the [k]-th star runs the
    one listener of its type, and there is no star beyond the last. *)
Lemma dispatch_wired type k s :
  wired s ->
  dispatch type k s
  = if decide (Z.of_nat k < TOTAL_STARS)%Z
    then run_listener (handler type (Z.of_nat k)) s
    else s.
Proof.
  intros Hwired. unfold dispatch.
  assert (Hk : listeners <$> (starContainer s !! k)
               = listeners_of <$> (seqZ 0 TOTAL_STARS !! k))
    by (by rewrite <- !list_lookup_fmap, Hwired).
  case_decide as Hlt.
  - rewrite lookup_seqZ_lt in Hk by done.
    destruct (starContainer s !! k) as [target|]; [|done].
    injection Hk as ->. by destruct type.
  - rewrite lookup_seqZ_ge in Hk by lia.
    by destruct (starContainer s !! k).
Qed.

Lemma dispatch_preserves_wired type k s : wired s -> wired (dispatch type k s).
Proof.
  intros Hwired. rewrite dispatch_wired by done.
  case_decide; [by apply run_listener_wired|done].
Qed.

Lemma reachable_wired container0 text0 s :
  reachable container0 text0 s -> wired s.
Proof.
  induction 1 as [|type k s _ IH];
    [apply loaded_wired|by apply dispatch_preserves_wired].
Qed.

(** C6: for [0 <= i < TOTAL_STARS], a click on the [i]-th star of the
    widget, in whatever state it is, stores [i + 1] in [rating] and writes
    that number as the text of [#rating-value]; it does nothing else: the
    stars are left as they are and nothing is sent anywhere. *)
Theorem click_sets_rating container0 text0 (s : state) (i : Z) :
  reachable container0 text0 s ->
  (0 <= i < TOTAL_STARS)%Z ->
  dispatch click (Z.to_nat i) s
  = {| starContainer := starContainer s;
       ratingValue := string_of_Z (i + 1);
       rating := i + 1 |}.
Proof.
  intros Hreach Hi.
  rewrite dispatch_wired by (by eapply reachable_wired).
  rewrite Z2Nat.id by lia. by rewrite decide_True by lia.
Qed.

Lemma click_sets_rating_witness :
  reachable [] "0" (dispatch mouseover 4 (loaded [] "0"))
  /\ (0 <= 2 < TOTAL_STARS)%Z
  /\ rating (dispatch click 2 (dispatch mouseover 4 (loaded [] "0"))) = 3%Z
  /\ ratingValue (dispatch click 2 (dispatch mouseover 4 (loaded [] "0"))) = "3".
Proof.
  assert (Hreach : reachable [] "0" (dispatch mouseover 4 (loaded [] "0")))
    by (apply reachable_dispatch, reachable_loaded).
  assert (Hi : (0 <= 2 < TOTAL_STARS)%Z) by (unfold TOTAL_STARS; lia).
  split; [exact Hreach|]. split; [exact Hi|].
  pose proof (click_sets_rating [] "0" _ 2 Hreach Hi) as Hclick.
  change (Z.to_nat 2) with 2%nat in Hclick.
  rewrite Hclick. split; reflexivity.
Defined.

(** C7: for [0 <= r <= number of stars], after [highlightStars(r)] the
    stars are as many as before, the star of index [k] has the class
    [filled] exactly when [k < r], so that exactly [r] stars are filled,
    whatever was filled before; calling it again changes nothing; and a
    [mouseout] on a star of the widget is [highlightStars(rating)]. *)
Theorem highlightStars_fills_first (r : Z) (s : state) :
  (0 <= r <= Z.of_nat (length (querySelectorAll_star s)))%Z ->
  length (querySelectorAll_star (highlightStars r s))
    = length (querySelectorAll_star s)
  /\ (forall k e,
        querySelectorAll_star (highlightStars r s) !! k = Some e ->
        is_filled e <-> (Z.of_nat k < r)%Z)
  /\ Z.of_nat (length (filter is_filled
                         (querySelectorAll_star (highlightStars r s)))) = r
  /\ highlightStars r (highlightStars r s) = highlightStars r s
  /\ (forall container0 text0 k,
        reachable container0 text0 s ->
        (Z.of_nat k < TOTAL_STARS)%Z ->
        dispatch mouseout k s = highlightStars (rating s) s).
Proof.
  intros Hr. unfold querySelectorAll_star in *. simpl.
  split; [apply highlight_from_stars_length|].
  split; [|split; [|split]].
  - intros k e Hk. unfold is_filled.
    rewrite (highlight_from_filled 0 r _ k e Hk). lia.
  - rewrite highlight_from_filled_count. lia.
  - unfold highlightStars. simpl. by rewrite highlight_from_idemp.
  - intros container0 text0 k Hreach Hk.
    rewrite dispatch_wired by (by eapply reachable_wired).
    by rewrite decide_True by done.
Qed.

Lemma highlightStars_fills_first_witness :
  (0 <= 2 <= Z.of_nat (length (querySelectorAll_star (loaded [] "0"))))%Z
  /\ classList <$> querySelectorAll_star (highlightStars 2 (loaded [] "0"))
     = [ ["star"; "filled"]; ["star"; "filled"]; ["star"]; ["star"]; ["star"] ]
  /\ Z.of_nat (length (filter is_filled
         (querySelectorAll_star (highlightStars 2 (loaded [] "0"))))) = 2%Z.
Proof.
  assert (Hr : (0 <= 2
                <= Z.of_nat (length (querySelectorAll_star (loaded [] "0"))))%Z)
    by (vm_compute; split; discriminate).
  split; [exact Hr|]. split; [reflexivity|].
  exact (proj1 (proj2 (proj2
    (highlightStars_fills_first 2 (loaded [] "0") Hr)))).
Defined.

(** C8: [rating] is an integer that starts at 0 and stays in
    [0 .. TOTAL_STARS] through every event of the widget: a [mouseover] or
    a [mouseout] leaves it as it is, and a [click], on the star of index
    [k < TOTAL_STARS], sets it to [k + 1]. *)
Theorem rating_in_range container0 text0 (s : state) :
  reachable container0 text0 s ->
  rating (loaded container0 text0) = 0%Z
  /\ (0 <= rating s <= TOTAL_STARS)%Z
  /\ (forall type k,
        (0 <= rating (dispatch type k s) <= TOTAL_STARS)%Z
        /\ (type <> click -> rating (dispatch type k s) = rating s)
        /\ (type = click -> (Z.of_nat k < TOTAL_STARS)%Z ->
            rating (dispatch type k s) = (Z.of_nat k + 1)%Z)).
Proof.
  intros Hreach.
  split; [by rewrite loaded_spec|].
  assert (Hstep : forall s', wired s' ->
            (0 <= rating s' <= TOTAL_STARS)%Z ->
            forall type k,
              (0 <= rating (dispatch type k s') <= TOTAL_STARS)%Z
              /\ (type <> click -> rating (dispatch type k s') = rating s')
              /\ (type = click -> (Z.of_nat k < TOTAL_STARS)%Z ->
                  rating (dispatch type k s') = (Z.of_nat k + 1)%Z)).
  { intros s' Hwired Hrange type k.
    rewrite dispatch_wired by done.
    case_decide as Hk; [|by split; [|split; [|intros _ ?; lia]]].
    destruct type; simpl; (split; [lia|split; [done|]]); try done. }
  assert (Hinv : (0 <= rating s <= TOTAL_STARS)%Z).
  { induction Hreach as [|type k s Hreach IH].
    - rewrite loaded_spec. simpl. unfold TOTAL_STARS. lia.
    - apply Hstep; [by eapply reachable_wired|done]. }
  split; [done|].
  apply Hstep; [by eapply reachable_wired|done].
Qed.

Lemma rating_in_range_witness :
  reachable [] "0" (dispatch click 4 (dispatch mouseout 1 (loaded [] "0")))
  /\ (0 <= rating (dispatch click 4 (dispatch mouseout 1 (loaded [] "0")))
       <= TOTAL_STARS)%Z.
Proof.
  assert (Hreach : reachable [] "0"
            (dispatch click 4 (dispatch mouseout 1 (loaded [] "0"))))
    by (do 2 apply reachable_dispatch; apply reachable_loaded).
  split; [exact Hreach|].
  exact (proj1 (proj2 (rating_in_range [] "0" _ Hreach))).
Defined.

(** *** What the widget shows *)

Lemma paint_add r k :
  classList_add "filled" (paint r k) = classList_add "filled" (star k).
Proof. unfold paint. by destruct (k <? r)%Z. Qed.

Lemma paint_remove r k : classList_remove "filled" (paint r k) = star k.
Proof. unfold paint. by destruct (k <? r)%Z. Qed.

Lemma paint_classList r k :
  classList (paint r k) = if (k <? r)%Z then ["star"; "filled"] else ["star"].
Proof. unfold paint. by destruct (k <? r)%Z. Qed.

Lemma highlight_from_paint (n : nat) (i r r' : Z) :
  highlight_from i r' (paint r <$> seqZ i (Z.of_nat n))
  = paint r' <$> seqZ i (Z.of_nat n).
Proof.
  revert i. induction n as [|n IH]; intros i; [done|].
  rewrite seqZ_cons by lia.
  replace (Z.pred (Z.of_nat (S n))) with (Z.of_nat n) by lia.
  replace (Z.succ i) with (i + 1)%Z by lia.
  cbn [fmap list_fmap highlight_from].
  assert (Hstar : contains "star" (paint r i) = true)
    by (unfold paint; by destruct (i <? r)%Z).
  rewrite Hstar, paint_add, paint_remove. f_equal. apply IH.
Qed.

Lemma highlightStars_shown r r' s :
  starContainer s = shown r ->
  highlightStars r' s
  = {| starContainer := shown r'; ratingValue := ratingValue s;
       rating := rating s |}.
Proof.
  intros Hshown. unfold highlightStars. rewrite Hshown. f_equal.
  apply (highlight_from_paint 5).
Qed.

Lemma shown_wired r text n :
  wired {| starContainer := shown r; ratingValue := text; rating := n |}.
Proof.
  unfold wired, shown. cbn [starContainer]. rewrite <- list_fmap_compose.
  apply list_fmap_ext. intros k i _. cbn [compose].
  unfold paint. destruct (i <? r)%Z; [by rewrite listeners_add|done].
Qed.

Lemma run_listener_consistent text0 l s :
  (match l with
   | OnMouseover i | OnClick i => (0 <= i < TOTAL_STARS)%Z
   | OnMouseout => True
   end) ->
  consistent text0 s -> consistent text0 (run_listener l s).
Proof.
  intros Hl [(r & Hr & Hshown) Htext].
  destruct l as [i| |i]; simpl.
  - rewrite (highlightStars_shown r) by done. split; [|done].
    exists (i + 1)%Z. split; [lia|done].
  - rewrite (highlightStars_shown r) by done. split; [|done].
    exists (rating s). split; [|done].
    destruct Htext as [[-> _]|[? _]]; [unfold TOTAL_STARS|]; lia.
  - split; [by exists r|]. right. simpl. split; [lia|done].
Qed.

Lemma reachable_consistent container0 text0 s :
  reachable container0 text0 s -> consistent text0 s.
Proof.
  induction 1 as [|type k s Hreach IH].
  - rewrite loaded_spec. split; [|by left].
    exists 0%Z. split; [unfold TOTAL_STARS; lia|done].
  - rewrite dispatch_wired by (by eapply reachable_wired).
    case_decide as Hk; [|done].
    apply run_listener_consistent; [|done]. destruct type; simpl; lia.
Qed.

(** X15: between two events the container holds the [TOTAL_STARS] stars
    as they were rendered, the first [r] of them with the class [filled]
    added and the others without it, for some [0 <= r <= TOTAL_STARS]: the
    filled stars are always a prefix. *)
Theorem container_shows_a_prefix container0 text0 (s : state) :
  reachable container0 text0 s ->
  exists r,
    (0 <= r <= TOTAL_STARS)%Z
    /\ starContainer s = shown r
    /\ classList <$> starContainer s
       = (fun k => if (k <? r)%Z then ["star"; "filled"] else ["star"])
           <$> seqZ 0 TOTAL_STARS.
Proof.
  intros [(r & Hr & Hshown) _]%reachable_consistent.
  exists r. split; [done|]. split; [done|].
  rewrite Hshown. unfold shown. rewrite <- list_fmap_compose.
  apply list_fmap_ext. intros k i _. apply paint_classList.
Qed.

Lemma container_shows_a_prefix_witness :
  reachable [] "0" (dispatch mouseover 1 (loaded [] "0"))
  /\ exists r,
       (0 <= r <= TOTAL_STARS)%Z
       /\ starContainer (dispatch mouseover 1 (loaded [] "0")) = shown r.
Proof.
  assert (Hreach : reachable [] "0" (dispatch mouseover 1 (loaded [] "0")))
    by (apply reachable_dispatch, reachable_loaded).
  split; [exact Hreach|].
  destruct (container_shows_a_prefix [] "0" _ Hreach) as (r & Hr & Hshown & _).
  by exists r.
Defined.

(** X16: hovering is transient: a [mouseover] on a star changes neither
    the rating nor the text, and after the [mouseout] that follows, on any
    star, the container shows the stored rating again. *)
Theorem hover_is_transient container0 text0 (s : state) (k j : nat) :
  reachable container0 text0 s ->
  (Z.of_nat k < TOTAL_STARS)%Z ->
  (Z.of_nat j < TOTAL_STARS)%Z ->
  rating (dispatch mouseover k s) = rating s
  /\ ratingValue (dispatch mouseover k s) = ratingValue s
  /\ dispatch mouseout j (dispatch mouseover k s)
     = {| starContainer := shown (rating s); ratingValue := ratingValue s;
          rating := rating s |}.
Proof.
  intros Hreach Hk Hj.
  pose proof (reachable_consistent _ _ _ Hreach) as [(r & _ & Hshown) _].
  assert (Hover : dispatch mouseover k s
                  = {| starContainer := shown (Z.of_nat k + 1);
                       ratingValue := ratingValue s; rating := rating s |}).
  { rewrite dispatch_wired by (by eapply reachable_wired).
    rewrite decide_True by done. simpl. by apply (highlightStars_shown r). }
  rewrite Hover. split; [done|]. split; [done|].
  rewrite dispatch_wired, decide_True; [|done|].
  - simpl. by rewrite (highlightStars_shown (Z.of_nat k + 1)).
  - rewrite <- Hover. apply dispatch_preserves_wired. by eapply reachable_wired.
Qed.

Lemma hover_is_transient_witness :
  reachable [] "0" (dispatch click 2 (loaded [] "0"))
  /\ (Z.of_nat 4 < TOTAL_STARS)%Z
  /\ classList <$> starContainer
        (dispatch mouseout 4 (dispatch mouseover 4
           (dispatch click 2 (loaded [] "0"))))
     = [ ["star"; "filled"]; ["star"; "filled"]; ["star"; "filled"];
         ["star"]; ["star"] ].
Proof.
  assert (Hreach : reachable [] "0" (dispatch click 2 (loaded [] "0")))
    by (apply reachable_dispatch, reachable_loaded).
  assert (Hk : (Z.of_nat 4 < TOTAL_STARS)%Z) by (unfold TOTAL_STARS; lia).
  split; [exact Hreach|]. split; [exact Hk|].
  rewrite (proj2 (proj2 (hover_is_transient [] "0" _ 4 4 Hreach Hk Hk))).
  reflexivity.
Defined.

(** X17: pointing at the star of index [i], clicking it and leaving it
    ends with the rating [i + 1], the text showing that number and exactly
    the first [i + 1] stars filled. *)
Theorem hover_click_leave container0 text0 (s : state) (i : nat) :
  reachable container0 text0 s ->
  (Z.of_nat i < TOTAL_STARS)%Z ->
  dispatch mouseout i (dispatch click i (dispatch mouseover i s))
  = {| starContainer := shown (Z.of_nat i + 1);
       ratingValue := string_of_Z (Z.of_nat i + 1);
       rating := Z.of_nat i + 1 |}.
Proof.
  intros Hreach Hi.
  pose proof (reachable_consistent _ _ _ Hreach) as [(r & _ & Hshown) _].
  pose proof (reachable_wired _ _ _ Hreach) as Hwired.
  rewrite (dispatch_wired mouseover) by done.
  rewrite decide_True by done. simpl.
  rewrite (highlightStars_shown r) by done.
  rewrite (dispatch_wired click) by apply shown_wired.
  rewrite decide_True by done. simpl.
  rewrite (dispatch_wired mouseout) by apply shown_wired.
  rewrite decide_True by done. simpl.
  by rewrite (highlightStars_shown (Z.of_nat i + 1)).
Qed.

Lemma hover_click_leave_witness :
  reachable [] "0" (loaded [] "0")
  /\ (Z.of_nat 3 < TOTAL_STARS)%Z
  /\ dispatch mouseout 3 (dispatch click 3 (dispatch mouseover 3 (loaded [] "0")))
     = {| starContainer := shown 4; ratingValue := "4"; rating := 4 |}.
Proof.
  assert (Hi : (Z.of_nat 3 < TOTAL_STARS)%Z) by (unfold TOTAL_STARS; lia).
  split; [apply reachable_loaded|]. split; [exact Hi|].
  exact (hover_click_leave [] "0" _ 3 (reachable_loaded [] "0") Hi).
Defined.

(** X18: until the first click the rating is 0 and the text is what the
    page held: a [mouseover] or a [mouseout] changes neither; a click on the
    star of index [k] sets the rating to [k + 1] and the text to that
    number; and once the rating is at least 1 no event brings it back to 0:
    it stays between 1 and [TOTAL_STARS], with the text showing it. *)
Theorem text_shows_rating container0 text0 (s : state) :
  reachable container0 text0 s ->
  ((rating s = 0%Z /\ ratingValue s = text0)
   \/ ((1 <= rating s <= TOTAL_STARS)%Z
       /\ ratingValue s = string_of_Z (rating s)))
  /\ (forall type k,
        type <> click ->
        rating (dispatch type k s) = rating s
        /\ ratingValue (dispatch type k s) = ratingValue s)
  /\ (forall k,
        (Z.of_nat k < TOTAL_STARS)%Z ->
        rating (dispatch click k s) = (Z.of_nat k + 1)%Z
        /\ ratingValue (dispatch click k s) = string_of_Z (Z.of_nat k + 1))
  /\ (forall type k,
        (1 <= rating s)%Z -> (1 <= rating (dispatch type k s))%Z).
Proof.
  intros Hreach.
  pose proof (reachable_consistent _ _ _ Hreach) as [_ Htext].
  pose proof (reachable_wired _ _ _ Hreach) as Hwired.
  split; [done|]. split; [|split].
  - intros type k Htype. rewrite dispatch_wired by done.
    case_decide; [|done]. by destruct type.
  - intros k Hk. rewrite dispatch_wired by done.
    by rewrite decide_True by done.
  - intros type k Hrated. rewrite dispatch_wired by done.
    case_decide; [|done]. destruct type; simpl; lia.
Qed.

Lemma text_shows_rating_witness :
  reachable [] "none" (dispatch mouseout 0 (dispatch click 1 (loaded [] "none")))
  /\ ratingValue (dispatch mouseout 0 (dispatch click 1 (loaded [] "none")))
     = "2"
  /\ rating (dispatch click 4
               (dispatch mouseout 0 (dispatch click 1 (loaded [] "none"))))
     = 5%Z.
Proof.
  assert (Hreach : reachable [] "none"
            (dispatch mouseout 0 (dispatch click 1 (loaded [] "none"))))
    by (do 2 apply reachable_dispatch; apply reachable_loaded).
  split; [exact Hreach|].
  destruct (text_shows_rating [] "none" _ Hreach)
    as ([[Hzero _]|[_ Htext]] & _ & Hclick & _); [discriminate Hzero|].
  split; [exact Htext|].
  exact (proj1 (Hclick 4%nat ltac:(unfold TOTAL_STARS; lia))).
Defined.

(** X19: [highlightStars] takes any number: with [r <= 0] it leaves no
    star filled, with [r] at or above the number of stars it fills them
    all. *)
Theorem highlightStars_out_of_range (r : Z) (s : state) :
  ((r <= 0)%Z ->
     Forall (fun e => ¬ is_filled e) (querySelectorAll_star (highlightStars r s)))
  /\ ((Z.of_nat (length (querySelectorAll_star s)) <= r)%Z ->
     Forall is_filled (querySelectorAll_star (highlightStars r s))).
Proof.
  unfold querySelectorAll_star. simpl. split; intros Hr.
  - apply Forall_lookup. intros k e Hk. unfold is_filled.
    rewrite (highlight_from_filled 0 r _ k e Hk). lia.
  - apply Forall_lookup. intros k e Hk. unfold is_filled.
    rewrite (highlight_from_filled 0 r _ k e Hk).
    apply lookup_lt_Some in Hk. rewrite highlight_from_stars_length in Hk. lia.
Qed.

Lemma highlightStars_out_of_range_witness :
  (Z.of_nat (length (querySelectorAll_star (loaded [] "0"))) <= 9)%Z
  /\ Forall is_filled (querySelectorAll_star (highlightStars 9 (loaded [] "0"))).
Proof.
  assert (Hr : (Z.of_nat (length (querySelectorAll_star (loaded [] "0"))) <= 9)%Z)
    by (vm_compute; discriminate).
  split; [exact Hr|].
  exact (proj2 (highlightStars_out_of_range 9 (loaded [] "0")) Hr).
Defined.

(** X20: [renderStars] with a [totalStars] that is not positive leaves
    the container empty; rendering again replaces what was rendered, filled
    classes included, and keeps the rating and the text. *)
Theorem renderStars_again (totalStars again r : Z) (s : state) :
  ((totalStars <= 0)%Z -> starContainer (renderStars totalStars s) = [])
  /\ renderStars again (renderStars totalStars s) = renderStars again s
  /\ renderStars again (highlightStars r s) = renderStars again s
  /\ rating (renderStars again s) = rating s
  /\ ratingValue (renderStars again s) = ratingValue s.
Proof.
  rewrite !renderStars_spec. simpl. split; [|done].
  intros Hle. replace (seqZ 0 totalStars) with (@nil Z); [done|].
  symmetry. apply length_zero_iff_nil. rewrite length_seqZ. lia.
Qed.

End StarRatingFacts.

(** ** Facts about the [reduce] examples *)

Module ReduceFacts.
Import Reduce.

Section Grouped.
Import Users.

(** One step of the reducer on a user whose country is a plain key. *)
Lemma group_plain accumulator user :
  plain user ->
  group accumulator user
  = Normal (<[country user := default [] (accumulator !! country user) ++ [user]]>
              accumulator).
Proof.
  intros Hplain. unfold group.
  destruct (accumulator !! country user) as [array|]; simpl; [done|].
  by rewrite bool_decide_eq_false_2.
Qed.

Lemma reduce_group_plain users accumulator :
  Forall plain users ->
  exists g,
    reduce group users accumulator = Normal g
    /\ forall c,
        g !! c = match from c users with
                 | [] => accumulator !! c
                 | l => Some (default [] (accumulator !! c) ++ l)
                 end.
Proof.
  intros Hplain. revert accumulator.
  induction Hplain as [|u rest Hu _ IH]; intros accumulator; simpl.
  - by exists accumulator.
  - rewrite group_plain by done. simpl.
    destruct (IH (<[country u := default [] (accumulator !! country u) ++ [u]]>
                    accumulator)) as (g & Hg & Hlookup).
    exists g. split; [done|]. intros c. rewrite Hlookup. unfold from.
    destruct (decide (country u = c)) as [<-|Hne].
    + rewrite (filter_cons_True (fun v => country v = country u)) by done.
      rewrite lookup_insert_eq. simpl.
      destruct (filter (fun v => country v = country u) rest); [done|].
      by rewrite <- app_assoc.
    + rewrite (filter_cons_False (fun v => country v = c)) by done.
      by rewrite lookup_insert_ne.
Qed.

Lemma reduce_group_inherited users accumulator :
  (forall c, c ∈ Object_prototype -> accumulator !! c = None) ->
  Exists (fun u => ¬ plain u) users ->
  reduce group users accumulator
  = Throw (TypeError "accumulator[user.country].push is not a function").
Proof.
  revert accumulator.
  induction users as [|u rest IH]; intros accumulator Hown Hbad.
  - by apply Exists_nil in Hbad.
  - simpl. destruct (decide (plain u)) as [Hu|Hu].
    + rewrite group_plain by done. simpl. apply IH.
      * intros c Hc. rewrite lookup_insert_ne; [by apply Hown|].
        intros <-. by apply Hu.
      * by apply Exists_cons in Hbad as [?|?].
    + apply dec_stable in Hu. unfold group.
      rewrite Hown by done. by rewrite bool_decide_eq_true_2.
Qed.

(** X4: when no country is a name inherited from [Object.prototype],
    [grouped] has one key per country that occurs, and under it the users of
    that country, all of them, in their order in the array. *)
Theorem grouped_by_country (users : list User) :
  Forall (fun u => country u ∉ Object_prototype) users ->
  exists g,
    grouped users = Normal g
    /\ forall c,
        g !! c = match from c users with
                 | [] => None
                 | l => Some l
                 end.
Proof.
  intros Hplain.
  destruct (reduce_group_plain users ∅ Hplain) as (g & Hg & Hlookup).
  exists g. split; [done|]. intros c. rewrite Hlookup, lookup_empty. done.
Qed.

(** X5: when the country of some user is a name inherited from
    [Object.prototype], such as [constructor] or [toString], [grouped]
    throws a [TypeError]: what it finds under that key is not an array. *)
Theorem grouped_inherited_key (users : list User) :
  Exists (fun u => country u ∈ Object_prototype) users ->
  grouped users
  = Throw (TypeError "accumulator[user.country].push is not a function").
Proof.
  intros Hbad. apply reduce_group_inherited; [done|].
  eapply Exists_impl; [exact Hbad|]. intros u Hu Hplain. by apply Hplain.
Qed.

End Grouped.

Section IndexMap.
Import Products.

Lemma with_id_absent i products :
  i ∉ id <$> products -> with_id i products = [].
Proof.
  unfold with_id. induction products as [|q rest IH]; intros Hi; [done|].
  simpl in Hi. apply not_elem_of_cons in Hi as [Hne Hi].
  rewrite filter_cons_False by done. by apply IH.
Qed.

Lemma reduce_index products accumulator :
  exists g,
    reduce index products accumulator = Normal g
    /\ (forall i,
         g !! i = match last (with_id i products) with
                  | Some p => Some p
                  | None => accumulator !! i
                  end)
    /\ (NoDup (id <$> products) ->
        (forall p, p ∈ products -> accumulator !! id p = None) ->
        size g = size accumulator + length products).
Proof.
  revert accumulator.
  induction products as [|p rest IH]; intros accumulator; simpl.
  - exists accumulator. split; [done|]. split; [done|]. intros _ _. lia.
  - destruct (IH (<[id p := p]> accumulator)) as (g & Hg & Hlookup & Hsize).
    exists g. split; [done|]. split.
    + intros i. rewrite Hlookup. unfold with_id.
      destruct (decide (id p = i)) as [<-|Hne].
      * rewrite (filter_cons_True (fun q => id q = id p)) by done.
        rewrite lookup_insert_eq.
        destruct (filter (fun q => id q = id p) rest) as [|q l]; [done|].
        change (last (p :: q :: l)) with (last (q :: l)).
        destruct (last (q :: l)) eqn:Hlast; [done|].
        by apply last_None in Hlast.
      * rewrite (filter_cons_False (fun q => id q = i)) by done.
        by rewrite lookup_insert_ne.
    + intros [Hp Hrest]%NoDup_cons Hfresh.
      rewrite Hsize; [| done |].
      * rewrite map_size_insert_None by (apply Hfresh; left). lia.
      * intros q Hq. rewrite lookup_insert_ne; [apply Hfresh; by right|].
        intros Heq. apply Hp. rewrite Heq. by apply list_elem_of_fmap_2.
Qed.

(** X6: [indexMap] holds under each id the last product of the array with
    that id, and nothing under an id no product has. *)
Theorem indexMap_last_wins (products : list Product) :
  exists g,
    indexMap products = Normal g
    /\ forall i, g !! i = last (with_id i products).
Proof.
  destruct (reduce_index products ∅) as (g & Hg & Hlookup & _).
  exists g. split; [done|]. intros i. rewrite Hlookup, lookup_empty.
  by destruct (last (with_id i products)).
Qed.

(** X7: when the ids are distinct, [indexMap] has as many keys as there
    are products, and what is found under an id is the product of the array
    with that id: [index[p.id]] is [p] exactly for the products of the
    array. *)
Theorem indexMap_distinct_ids (products : list Product) :
  NoDup (id <$> products) ->
  exists g,
    indexMap products = Normal g
    /\ size g = length products
    /\ forall p, g !! id p = Some p <-> p ∈ products.
Proof.
  intros Hids.
  destruct (reduce_index products ∅) as (g & Hg & Hlookup & Hsize).
  exists g. split; [done|]. split.
  - rewrite Hsize by done. by rewrite map_size_empty.
  - intros p. rewrite Hlookup, lookup_empty. split.
    + destruct (last (with_id (id p) products)) as [q|] eqn:Hlast; [|done].
      intros [= ->]. apply last_Some_elem_of in Hlast.
      by apply list_elem_of_filter in Hlast as [_ ?].
    + intros Hp.
      assert (Hone : with_id (id p) products = [p]); [|by rewrite Hone].
      clear Hlookup Hsize Hg.
      induction products as [|q rest IH]; [by apply elem_of_nil in Hp|].
      simpl in Hids. apply NoDup_cons in Hids as [Hq Hrest].
      unfold with_id in *.
      apply elem_of_cons in Hp as [->|Hp].
      * rewrite filter_cons_True by done.
        pose proof (with_id_absent (id q) rest Hq) as Hnone.
        unfold with_id in Hnone. by rewrite Hnone.
      * rewrite filter_cons_False; [by apply IH|].
        intros Heq. apply Hq. rewrite Heq. by apply list_elem_of_fmap_2.
Qed.

End IndexMap.

Example grouped_users :
  Users.grouped Users.users
  = Normal (<["USA" := [ {| Users.name := "John"; Users.country := "USA" |};
                         {| Users.name := "Bob"; Users.country := "USA" |} ]]>
            (<["Canada" := [ {| Users.name := "Alice"; Users.country := "Canada" |};
                             {| Users.name := "Eve"; Users.country := "Canada" |} ]]>
             ∅)).
Proof. vm_compute. reflexivity. Qed.

Lemma grouped_by_country_witness :
  Forall (fun u => Users.country u ∉ Object_prototype) Users.users
  /\ exists g,
       Users.grouped Users.users = Normal g
       /\ g !! "USA"
          = Some [ {| Users.name := "John"; Users.country := "USA" |};
                   {| Users.name := "Bob"; Users.country := "USA" |} ]
       /\ g !! "India" = None.
Proof.
  assert (Hplain : Forall (fun u => Users.country u ∉ Object_prototype)
                     Users.users)
    by (repeat constructor; apply (bool_decide_unpack _); exact I).
  split; [exact Hplain|].
  destruct (grouped_by_country Users.users Hplain) as (g & Hg & Hlookup).
  exists g. split; [exact Hg|]. split; rewrite Hlookup; reflexivity.
Defined.

Lemma grouped_inherited_key_witness :
  Users.grouped
    [ {| Users.name := "John"; Users.country := "USA" |};
      {| Users.name := "Zed"; Users.country := "constructor" |} ]
  = Throw (TypeError "accumulator[user.country].push is not a function").
Proof.
  apply grouped_inherited_key.
  apply Exists_cons_tl, Exists_cons_hd.
  apply (bool_decide_unpack _). exact I.
Defined.

Lemma indexMap_distinct_ids_witness :
  NoDup (Products.id <$> Products.products)
  /\ exists g,
       Products.indexMap Products.products = Normal g
       /\ size g = 3
       /\ g !! 102%Z
          = Some {| Products.id := 102; Products.name := "Phone";
                    Products.price := 500; Products.quantity := 3 |}.
Proof.
  assert (Hids : NoDup (Products.id <$> Products.products))
    by (apply (bool_decide_unpack _); exact I).
  split; [exact Hids|].
  destruct (indexMap_distinct_ids Products.products Hids)
    as (g & Hg & Hsize & Hlookup).
  exists g. split; [exact Hg|]. split; [exact Hsize|].
  apply (Hlookup {| Products.id := 102; Products.name := "Phone";
                    Products.price := 500; Products.quantity := 3 |}).
  apply elem_of_cons. right. apply elem_of_cons. by left.
Defined.

End ReduceFacts.

(** ** Facts about the notes on functions *)

Module FunctionsFacts.
Import Functions.

(** X8: [findActiveUser] returns the first active user of the array, the
    users before it being inactive, and [null] exactly when no user is
    active; so [validateUser] accepts its result exactly when some user is
    active. *)
Theorem findActiveUser_first (users : list User) :
  match findActiveUser users with
  | Some user =>
      exists before after,
        users = before ++ user :: after
        /\ isActive user = true
        /\ Forall (fun u => isActive u = false) before
  | None => Forall (fun u => isActive u = false) users
  end
  /\ (validateUser (findActiveUser users) = true
      <-> Exists (fun u => isActive u = true) users).
Proof.
  induction users as [|u rest [IHfind IHvalid]]; simpl.
  - split; [done|]. split; [done|by intros ?%Exists_nil].
  - destruct (isActive u) eqn:Hu.
    + split; [by exists [], rest|]. split; [by left|done].
    + split.
      * destruct (findActiveUser rest) as [found|].
        -- destruct IHfind as (before & after & -> & Hfound & Hbefore).
           exists (u :: before), after. by repeat split; [|constructor].
        -- by constructor.
      * rewrite IHvalid, Exists_cons. split; [by right|].
        intros [Habs|?]; [congruence|done].
Qed.

End FunctionsFacts.
